(** * Indexed tensor expressions of the Cyclops Tensor Framework

    A shallow embedding of [tCTF_Idx_Tensor] (the indexed view of a tensor:
    its constructors, the operators [=], [+=], [-=], [*=] and [execute]),
    of the intermediate-shape inference [get_intermediate], and of the
    sparse read/write contract of [CTF_Sparse_Tensor], together with the
    properties of these operations.

    Tensors live in a heap addressed by pointers, so that a view and the
    caller's tensor may alias; every call of a tensor primitive is
    recorded in a trace. *)

From Stdlib Require Import ZArith Ascii String Ring.
From stdpp Require Import base option list gmap strings.

Local Open Scope Z_scope.
#[local] Set Warnings "-register-all".

(** ** The arithmetic domain [dtype]

    The classes are templates over [dtype]; the operations the code uses
    are the literals [0.0], [1.0], [-1.0], addition and multiplication. *)

Class Scalar (dtype : Type) := {
  d0 : dtype;
  d1 : dtype;
  dadd : dtype → dtype → dtype;
  dmul : dtype → dtype → dtype;
  dsub : dtype → dtype → dtype;
  dopp : dtype → dtype
}.

(** The laws of the arithmetic domain, as a ring. *)
Definition Scalar_ring (dtype : Type) `{Scalar dtype} : Prop :=
  ring_theory d0 d1 dadd dmul dsub dopp (@eq dtype).

(** ** Outcomes

    The conditions are those of the error taxonomy; [Undefined] stands
    for C++ undefined behaviour (reading an indeterminate or dangling
    pointer, reading past the end of a buffer). *)

Inductive condition :=
  | ShapeMismatch
  | UnboundFreeIndex
  | DimensionMismatch
  | WorldMismatch
  | InvalidShape
  | IndexOutOfBounds
  | ReuseOfConsumedTerm.

Inductive outcome (A : Type) :=
  | Ok (a : A)
  | Fail (c : condition)
  | Undefined.
Arguments Ok {A} a.
Arguments Fail {A} c.
Arguments Undefined {A}.

#[export] Instance outcome_ret : MRet outcome := λ A a, Ok a.
#[export] Instance outcome_bind : MBind outcome := λ A B f m,
  match m with
  | Ok a => f a
  | Fail c => Fail c
  | Undefined => Undefined
  end.

(** ** Tensors *)

(** Symmetry tags: the tag at position [i] relates dimension [i] and
    dimension [i+1]. *)
Inductive sym_tag := NS | SY | AS | SH.

#[export] Instance sym_tag_eq_dec : EqDecision sym_tag.
Proof. solve_decision. Defined.

Abbreviation ptr := nat (only parsing).

Section Types.

Context {dtype : Type}.

(** [CTF_Tensor]: the number of dimensions, the edge lengths, the symmetry
    tags, and the values, addressed by global index. *)
Record Tensor := {
  ndim : nat;
  len : list Z;
  sym : list sym_tag;
  data : list dtype
}.

(** A call of one of the tensor primitives, as recorded in the trace. *)
Inductive Call :=
  | Call_sum (dst : ptr) (alpha : dtype) (A : ptr) (idx_A : list ascii)
             (beta : dtype) (idx_B : list ascii)
  | Call_contract (dst : ptr) (alpha : dtype) (A : ptr) (idx_A : list ascii)
                  (B : ptr) (idx_B : list ascii)
                  (beta : dtype) (idx_C : list ascii)
  | Call_scale (dst : ptr) (alpha : dtype) (idx_A : list ascii).

Record State := {
  heap : gmap nat Tensor;
  trace : list Call
}.

(** [tCTF_Idx_Tensor]: the viewed tensor, one label for each of its
    dimensions, the intermediate flag and the scale. *)
Record Idx_Tensor := {
  parent : ptr;
  idx_map : list ascii;
  is_intm : Z;
  scale : dtype
}.

(** Modelled from the spec: the classes [tCTF_Term], [tCTF_Sum_Term] and
    [tCTF_Contract_Term] are declared outside src/.  A term is a leaf (an
    indexed view), a sum of terms or a contraction of two terms; every
    term has the member [scale] that [operator-=] updates. *)
Inductive Term :=
  | Leaf (v : Idx_Tensor)
  | Sum (s : dtype) (operands : list Term)
  | Contract (s : dtype) (A B : Term).

(** [CTF_Sparse_Tensor]: the tensor, the global indices and the scale. *)
Record Sparse_Tensor := {
  sp_parent : ptr;
  indices : list Z;
  sp_scale : dtype
}.

End Types.

Arguments Tensor : clear implicits.
Arguments Call : clear implicits.
Arguments State : clear implicits.
Arguments Idx_Tensor : clear implicits.
Arguments Term : clear implicits.
Arguments Sparse_Tensor : clear implicits.

(** The index matching of the summation kernel: [sum_kernel A idx_A len_B
    sym_B idx_B g] is the entry that [A[idx_A]] contributes to position
    [g] of a tensor of shape [len_B], [sym_B] labelled [idx_B].  The
    kernel is outside the engine and is left open. *)
Class Kernel (dtype : Type) := {
  sum_kernel :
    Tensor dtype → list ascii → list Z → list sym_tag → list ascii → nat → dtype
}.

(** [tCTF_Term::execute(output)], the member of the base class of the
    terms, which is outside src/.  It is run on an object of the base
    class itself, of which the source shows the one member [scale]. *)
Class Base (dtype : Type) := {
  base_execute : dtype → Idx_Tensor dtype → State dtype → outcome (State dtype)
}.

Declare Scope dtype_scope.
Delimit Scope dtype_scope with D.
Notation "x + y" := (dadd x y) : dtype_scope.
Notation "x * y" := (dmul x y) : dtype_scope.
Notation "x - y" := (dsub x y) : dtype_scope.
Notation "- x" := (dopp x) : dtype_scope.

(** Reading position [i] of an array. *)
Definition rd {A : Type} (d : A) (l : list A) (i : nat) : A :=
  default d (l !! i).

Section Engine.

Context {dtype : Type} {SC : Scalar dtype} {K : Kernel dtype} {N : Base dtype}.

(** ** The heap and the tensor primitives *)

(** Dereferencing a pointer; a pointer to no live tensor is undefined. *)
Definition deref (st : State dtype) (p : ptr) : outcome (Tensor dtype) :=
  match heap st !! p with
  | Some T => Ok T
  | None => Undefined
  end.

(** [new tCTF_Tensor(...)]: the tensor is placed at an unused address. *)
Definition new_Tensor (T : Tensor dtype) (st : State dtype)
  : ptr * State dtype :=
  let p := fresh (dom (heap st)) in
  (p, {| heap := <[p := T]> (heap st); trace := trace st |}).

(** Modelled from the spec: the body of the copying constructor
    [CTF_Tensor(A, copy)] is not under src/; by its declaration it "copies
    a tensor (setting data to zero or copying A)". *)
Definition Tensor_copy (A : Tensor dtype) (copy : bool) : Tensor dtype :=
  {| ndim := ndim A; len := len A; sym := sym A;
     data := if copy then data A else replicate (length (data A)) d0 |}.

(** Modelled from the spec: the body of the constructor
    [CTF_Tensor(ndim, len, sym, world)] is not under src/; by its
    declaration the new tensor is "filled with zeros". *)
Definition Tensor_zeros (ndim_ : nat) (len_ : list Z) (sym_ : list sym_tag)
  : Tensor dtype :=
  {| ndim := ndim_; len := len_; sym := sym_;
     data := replicate (Z.to_nat (foldr Z.mul 1 len_)) d0 |}.

(** Modelled from the spec: the body of [CTF_Tensor::sum] is not under
    src/; by its declaration it "sums B[idx_B] = beta*B[idx_B] +
    alpha*A[idx_A]", [B] being the tensor the method is called on. *)
Definition Tensor_sum (alpha : dtype) (A : Tensor dtype) (idx_A : list ascii)
    (beta : dtype) (idx_B : list ascii) (B : Tensor dtype) : Tensor dtype :=
  {| ndim := ndim B; len := len B; sym := sym B;
     data := imap (λ g b,
               (beta * b + alpha * sum_kernel A idx_A (len B) (sym B) idx_B g)%D)
               (data B) |}.

(** The method call [this->sum(alpha, *A, idx_A, beta, idx_B)] on the
    heap: both tensors are read, the destination is replaced, and the
    call is recorded. *)
Definition sum_call (this : ptr) (alpha : dtype) (A : ptr)
    (idx_A : list ascii) (beta : dtype) (idx_B : list ascii)
    (st : State dtype) : outcome (State dtype) :=
  TB ← deref st this;
  TA ← deref st A;
  Ok {| heap := <[this := Tensor_sum alpha TA idx_A beta idx_B TB]> (heap st);
        trace := trace st ++ [Call_sum this alpha A idx_A beta idx_B] |}.

(** ** Indexed views *)

Definition set_scale (s : dtype) (v : Idx_Tensor dtype) : Idx_Tensor dtype :=
  {| parent := parent v; idx_map := idx_map v; is_intm := is_intm v;
     scale := s |}.

Definition set_is_intm (b : Z) (v : Idx_Tensor dtype) : Idx_Tensor dtype :=
  {| parent := parent v; idx_map := idx_map v; is_intm := b;
     scale := scale v |}.

(** The bytes readable through a [const char *] that points to the string
    [s]: its characters and the terminating NUL. *)
Definition c_str (s : string) : list ascii :=
  list_ascii_of_string s ++ ["000"%char].

(** [memcpy(dst, src, n)] into a fresh buffer of [n] bytes; reading past
    the end of the source is undefined. *)
Definition memcpy (src : list ascii) (n : nat) : outcome (list ascii) :=
  if decide (n ≤ length src)%nat then Ok (take n src) else Undefined.

(** The value of the member [parent] when the body of a constructor
    starts: the member has no initialiser, so it is indeterminate. *)
Definition indeterminate : option ptr := None.

Definition deref_member (st : State dtype) (m : option ptr)
  : outcome (Tensor dtype) :=
  match m with
  | Some p => deref st p
  | None => Undefined
  end.

(** [tCTF_Idx_Tensor(parent_, idx_map_, copy)] (lines 87-101), [idx_map_]
    being the bytes readable through the pointer.  In the [copy] branch
    the source copies [*parent], the member of the view under
    construction, not [*parent_]. *)
Definition Idx_Tensor_ctor (parent_ : ptr) (idx_map_ : list ascii) (copy : Z)
    (st : State dtype) : outcome (Idx_Tensor dtype * State dtype) :=
  if negb (copy =? 0) then
    T ← deref_member st indeterminate;
    let '(p, st1) := new_Tensor (Tensor_copy T true) st in
    T1 ← deref st1 p;
    idx ← memcpy idx_map_ (ndim T1);
    Ok ({| parent := p; idx_map := idx; is_intm := 0; scale := d1 |}, st1)
  else
    T ← deref st parent_;
    idx ← memcpy idx_map_ (ndim T);
    Ok ({| parent := parent_; idx_map := idx; is_intm := 0; scale := d1 |}, st).

(** [tCTF_Idx_Tensor(other, copy)] (lines 103-117). *)
Definition Idx_Tensor_ctor_view (other : Idx_Tensor dtype) (copy : Z)
    (st : State dtype) : outcome (Idx_Tensor dtype * State dtype) :=
  if negb (copy =? 0) then
    T ← deref st (parent other);
    let '(p, st1) := new_Tensor (Tensor_copy T true) st in
    T1 ← deref st1 p;
    idx ← memcpy (idx_map other) (ndim T1);
    Ok ({| parent := p; idx_map := idx; is_intm := is_intm other;
           scale := scale other |}, st1)
  else
    T ← deref st (parent other);
    idx ← memcpy (idx_map other) (ndim T);
    Ok ({| parent := parent other; idx_map := idx; is_intm := is_intm other;
           scale := scale other |}, st).

(** [tCTF_Idx_Tensor::execute(output)] (lines 158-162): the view is
    summed into the tensor of [output]. *)
Definition Idx_Tensor_execute (this output : Idx_Tensor dtype)
    (st : State dtype) : outcome (State dtype) :=
  sum_call (parent output) (scale this) (parent this) (idx_map this)
           (scale output) (idx_map output) st.

(** [tCTF_Idx_Tensor::execute()] (lines 164-167). *)
Definition Idx_Tensor_execute0 (this : Idx_Tensor dtype) : Idx_Tensor dtype :=
  this.

(** ** Terms *)

Definition Term_scale (t : Term dtype) : dtype :=
  match t with
  | Leaf v => scale v
  | Sum s _ => s
  | Contract s _ _ => s
  end.

Definition Term_set_scale (s : dtype) (t : Term dtype) : Term dtype :=
  match t with
  | Leaf v => Leaf (set_scale s v)
  | Sum _ ops => Sum s ops
  | Contract _ A B => Contract s A B
  end.

(** The call [B.execute(output)] in the operators below.  Their
    parameter [B] has the class [tCTF_Term<dtype>] and is taken by value
    (lines 134, 140, 146, 153), so [B] is an object of the base class: of
    the term the caller wrote it keeps the members of the base class, the
    [scale], and the call runs [tCTF_Term::execute].  The members
    [parent], [idx_map] and [is_intm] of a view are its own (the source
    names them without [this->], as it cannot for [scale]), so they are
    not in [B], and the [execute] of the view (lines 158-162) is not
    reached. *)
Definition Term_execute (t : Term dtype) (output : Idx_Tensor dtype)
    (st : State dtype) : outcome (State dtype) :=
  base_execute (Term_scale t) output st.


(** ** The operators of a view

    Each operator updates the view it is called on and runs the term it
    was given, by value; [execute] receives a copy of the view.  The
    result is the updated view and the outcome of the execution. *)

(** [operator=(B)] (lines 133-137) *)
Definition op_assign (this : Idx_Tensor dtype) (B : Term dtype)
    (st : State dtype) : Idx_Tensor dtype * outcome (State dtype) :=
  let this1 := set_scale d0 this in
  (this1, Term_execute B this1 st).

(** [operator+=(B)] (lines 139-143) *)
Definition op_add_assign (this : Idx_Tensor dtype) (B : Term dtype)
    (st : State dtype) : Idx_Tensor dtype * outcome (State dtype) :=
  let this1 := set_scale d1 this in
  (this1, Term_execute B this1 st).

(** [operator-=(B)] (lines 145-150) *)
Definition op_sub_assign (this : Idx_Tensor dtype) (B : Term dtype)
    (st : State dtype) : Idx_Tensor dtype * outcome (State dtype) :=
  let this1 := set_scale d1 this in
  let B1 := Term_set_scale (Term_scale B * - d1)%D B in
  (this1, Term_execute B1 this1 st).



(** The tensors of two states, or of a tensor before and after a call,
    have the same shape. *)
Definition same_shape (T T' : Tensor dtype) : Prop :=
  ndim T' = ndim T ∧ len T' = len T ∧ sym T' = sym T.

(** The outcome [o] of an operator on the view [C] is a state in which
    the tensor of [C] holds the entries [v]. *)
Definition leaves_data (C : Idx_Tensor dtype) (o : outcome (State dtype))
    (v : list dtype) : Prop :=
  ∃ (st' : State dtype) (T : Tensor dtype),
    o = Ok st' ∧ heap st' !! parent C = Some T ∧ data T = v.

(** ** The intermediate of a contraction

    [get_intermediate(A, B)] (lines 15-85) is disabled in the source (its
    body stands in a comment); it is embedded as written there.  The
    arrays [idx_C], [len_C] and [sym_C] are filled from left to right,
    [idx] being the next position: the model keeps their written prefix,
    so that [idx] is the length of [idx_C]. *)

Record Fill := {
  idx_C : list ascii;
  len_C : list Z;
  sym_C : list sym_tag
}.

(** The label of dimension [i] of a view. *)
Definition label (X : Idx_Tensor dtype) (i : nat) : ascii :=
  rd "000"%char (idx_map X) i.

(** The inner search loop over the labels of the other operand: it is
    left with its counter equal to [ndim] exactly when none of the first
    [ndim] labels equals [c]. *)
Definition found (c : ascii) (v : Idx_Tensor dtype) (T : Tensor dtype) : bool :=
  bool_decide (c ∈ take (ndim T) (idx_map v)).

(** The two counting loops (lines 22-40), each for one operand: a
    dimension counts when its label is not found in the other operand. *)
Definition count_free (A : Idx_Tensor dtype) (TA : Tensor dtype)
    (B : Idx_Tensor dtype) (TB : Tensor dtype) : nat :=
  foldl (λ n i, if found (label A i) B TB then n else S n)
        0%nat (seq 0 (ndim TA)).

(** One turn of a filling loop (lines 46-61 and 62-77), for dimension [i]
    of the operand [X]. *)
Definition fill_step (X : Idx_Tensor dtype) (TX : Tensor dtype)
    (Y : Idx_Tensor dtype) (TY : Tensor dtype) (f : Fill) (i : nat) : Fill :=
  if found (label X i) Y TY then f
  else
    let idx := length (idx_C f) in
    let sym1 :=
      if (1 <=? idx)%nat && (1 <=? i)%nat
         && bool_decide (rd "000"%char (idx_C f) (idx - 1)
                         = label X (i - 1))
         && negb (bool_decide (rd NS (sym TX) (i - 1) = NS))
      then <[(idx - 1)%nat := rd NS (sym TX) (i - 1)]> (sym_C f)
      else sym_C f in
    {| idx_C := idx_C f ++ [label X i];
       len_C := len_C f ++ [rd 0 (len TX) i];
       sym_C := sym1 ++ [NS] |}.

Definition fill_loop (X : Idx_Tensor dtype) (TX : Tensor dtype)
    (Y : Idx_Tensor dtype) (TY : Tensor dtype) (f : Fill) : Fill :=
  foldl (fill_step X TX Y TY) f (seq 0 (ndim TX)).

(** The labels, lengths and symmetry tags of the intermediate. *)
Definition intermediate_shape (A : Idx_Tensor dtype) (TA : Tensor dtype)
    (B : Idx_Tensor dtype) (TB : Tensor dtype) : Fill :=
  fill_loop B TB A TA
    (fill_loop A TA B TB {| idx_C := []; len_C := []; sym_C := [] |}).

(** The new tensor is made of the counted dimensions and the filled
    arrays; the view of it is built by the constructor above with its
    copy flag left to the default, unset, and is marked intermediate. *)
Definition get_intermediate (A B : Idx_Tensor dtype) (st : State dtype)
  : outcome (Idx_Tensor dtype * State dtype) :=
  TA ← deref st (parent A);
  TB ← deref st (parent B);
  let ndim_C := (count_free A TA B TB + count_free B TB A TA)%nat in
  let f := intermediate_shape A TA B TB in
  let '(tsr_C, st1) := new_Tensor (Tensor_zeros ndim_C (len_C f) (sym_C f)) st in
  '(out, st2) ← Idx_Tensor_ctor tsr_C (idx_C f) 0 st1;
  Ok (set_is_intm 1 out, st2).

(** The dimensions of [X] below [n] that stay uncontracted with [Y], in
    their order. *)
Definition free_dims (X : Idx_Tensor dtype) (Y : Idx_Tensor dtype)
    (TY : Tensor dtype) (n : nat) : list nat :=
  filter (λ i, found (label X i) Y TY = false) (seq 0 n).

(** The tag kept for the uncontracted dimension [i] of the operand [X],
    of [n] dimensions, contracted with [Y]: the tag of [X] at [i] when
    dimension [i+1] of [X] stays uncontracted too, and [NS] otherwise. *)
Definition kept_tag (X : Idx_Tensor dtype) (TX : Tensor dtype)
    (Y : Idx_Tensor dtype) (TY : Tensor dtype) (n : nat) (i : nat) : sym_tag :=
  if (S i <? n)%nat && negb (found (label X (S i)) Y TY)
  then rd NS (sym TX) i else NS.

(** ** Sparse views *)

(** A global index within a tensor of [n] entries. *)
Definition in_range (n : nat) (k : Z) : bool :=
  (0 <=? k) && (k <? Z.of_nat n).

(** Modelled from the spec: the body of [CTF_Sparse_Tensor::write] is not
    under src/; by its declaration it does "forall(j) i = indices[j];
    parent[i] = beta*parent[i] + alpha*values[j]", here for the indices
    in their order. *)
Fixpoint write_loop (alpha beta : dtype) (ks : list Z) (values : list dtype)
    (d : list dtype) : list dtype :=
  match ks, values with
  | k :: ks', v :: values' =>
      write_loop alpha beta ks' values'
        (<[Z.to_nat k := (beta * rd d0 d (Z.to_nat k) + alpha * v)%D]> d)
  | _, _ => d
  end.

(** Modelled from the spec: the body of [CTF_Sparse_Tensor::read] is not
    under src/; by its declaration it does "forall(j) i = indices[j];
    values[j] = alpha*parent[i] + beta*values[j]"; entries of [values]
    past the number of indices are left as they are. *)
Fixpoint read_loop (alpha beta : dtype) (ks : list Z) (values : list dtype)
    (d : list dtype) : list dtype :=
  match ks, values with
  | k :: ks', v :: values' =>
      (alpha * rd d0 d (Z.to_nat k) + beta * v)%D
        :: read_loop alpha beta ks' values' d
  | _, _ => values
  end.

Definition set_data (d : list dtype) (T : Tensor dtype) : Tensor dtype :=
  {| ndim := ndim T; len := len T; sym := sym T; data := d |}.

(** Modelled from the spec: [write(alpha, values, beta)] on the heap.  A
    key out of range fails with IndexOutOfBounds before anything is
    written; [values] is to hold one entry for each index, and reading
    past its end is undefined. *)
Definition Sparse_write (this : Sparse_Tensor dtype) (alpha : dtype)
    (values : list dtype) (beta : dtype) (st : State dtype)
  : outcome (State dtype) :=
  T ← deref st (sp_parent this);
  if negb (forallb (in_range (length (data T))) (indices this)) then
    Fail IndexOutOfBounds
  else if negb (length (indices this) <=? length values)%nat then Undefined
  else
    Ok {| heap := <[sp_parent this :=
                    set_data (write_loop alpha beta (indices this) values
                                (data T)) T]> (heap st);
          trace := trace st |}.

(** Modelled from the spec: [read(alpha, values, beta)] on the heap, with
    the same checks; it returns the new contents of [values]. *)
Definition Sparse_read (this : Sparse_Tensor dtype) (alpha : dtype)
    (values : list dtype) (beta : dtype) (st : State dtype)
  : outcome (list dtype) :=
  T ← deref st (sp_parent this);
  if negb (forallb (in_range (length (data T))) (indices this)) then
    Fail IndexOutOfBounds
  else if negb (length (indices this) <=? length values)%nat then Undefined
  else Ok (read_loop alpha beta (indices this) values (data T)).

(** ** A reference index matching

    Global indices are column major: the index (i,j,k) of a tensor with
    edge lengths (m,n,p) has the global index i + j*m + k*m*n. *)

Fixpoint unravel (lens : list Z) (g : Z) : list Z :=
  match lens with
  | [] => []
  | m :: lens' => (g mod m) :: unravel lens' (g / m)
  end.

Fixpoint ravel (lens : list Z) (ix : list Z) : Z :=
  match lens, ix with
  | m :: lens', i :: ix' => i + m * ravel lens' ix'
  | _, _ => 0
  end.

Fixpoint env_get (e : list (ascii * Z)) (c : ascii) : Z :=
  match e with
  | [] => 0
  | (c', i) :: e' => if decide (c' = c) then i else env_get e' c
  end.

Fixpoint sum_over (free : list (ascii * Z)) (e : list (ascii * Z))
    (f : list (ascii * Z) → dtype) : dtype :=
  match free with
  | [] => f e
  | (c, n) :: free' =>
      foldr (λ k acc, (sum_over free' ((c, Z.of_nat k) :: e) f + acc)%D) d0
            (seq 0 (Z.to_nat n))
  end.

(** Modelled from the spec: the summation kernel is not under src/.  By
    the declaration of [sum] and the rule for labels, position [g] of
    [B[idx_B]] receives the entries of [A[idx_A]] at the positions that
    agree with it on the labels of [idx_B], summed over the labels that
    only [idx_A] has.  It serves to run the operators on concrete
    tensors. *)
Definition einsum_entry (A : Tensor dtype) (idx_A : list ascii)
    (len_B : list Z) (sym_B : list sym_tag) (idx_B : list ascii) (g : nat)
  : dtype :=
  sum_over (filter (λ p, p.1 ∉ idx_B) (zip idx_A (len A)))
           (zip idx_B (unravel len_B (Z.of_nat g)))
           (λ e, rd d0 (data A)
                   (Z.to_nat (ravel (len A) (map (env_get e) idx_A)))).

End Engine.

(** ** Integer tensors, for running the operations *)

#[export] Instance Z_Scalar : Scalar Z := {|
  d0 := 0; d1 := 1; dadd := Z.add; dmul := Z.mul; dsub := Z.sub; dopp := Z.opp
|}.

Definition einsum_Kernel {dtype : Type} `{Scalar dtype} : Kernel dtype :=
  {| sum_kernel := einsum_entry |}.

(** A base class whose [execute] has an empty body. *)
Definition empty_Base {dtype : Type} : Base dtype :=
  {| base_execute := λ _ _ st, Ok st |}.

(** Two 2x2 tensors in a heap, and views of them: [A["ji"]] with scale
    3 and [C["ij"]] with scale 7. *)
Definition A22 : Tensor Z :=
  {| ndim := 2; len := [2; 2]; sym := [NS; NS]; data := [1; 2; 3; 4] |}.
Definition C22 : Tensor Z :=
  {| ndim := 2; len := [2; 2]; sym := [NS; NS]; data := [10; 20; 30; 40] |}.
Definition heap22 : State Z :=
  {| heap := {[ 1%nat := A22; 2%nat := C22 ]}; trace := [] |}.
Definition view_A : Idx_Tensor Z :=
  {| parent := 1%nat; idx_map := ["j"; "i"]%char; is_intm := 0; scale := 3 |}.
Definition view_C : Idx_Tensor Z :=
  {| parent := 2%nat; idx_map := ["i"; "j"]%char; is_intm := 0; scale := 7 |}.

(** [A["ij"]] with scale 3: the scale of [view_A], other labels. *)
Definition view_A' : Idx_Tensor Z :=
  {| parent := 1%nat; idx_map := ["i"; "j"]%char; is_intm := 0; scale := 3 |}.

(** A fully symmetric tensor of three dimensions and a vector, and views
    for the contraction of [S["kij"]] with [V["k"]]. *)
Definition S222 : Tensor Z :=
  {| ndim := 3; len := [2; 2; 2]; sym := [SY; SY; NS]; data := replicate 8 1 |}.
Definition V2 : Tensor Z :=
  {| ndim := 1; len := [2]; sym := [NS]; data := [1; 1] |}.
Definition heap_sym : State Z :=
  {| heap := {[ 1%nat := S222; 2%nat := V2 ]}; trace := [] |}.
Definition view_S : Idx_Tensor Z :=
  {| parent := 1%nat; idx_map := ["k"; "i"; "j"]%char; is_intm := 0; scale := 1 |}.
Definition view_S' : Idx_Tensor Z :=
  {| parent := 1%nat; idx_map := ["i"; "k"; "j"]%char; is_intm := 0; scale := 1 |}.
Definition view_V : Idx_Tensor Z :=
  {| parent := 2%nat; idx_map := ["k"]%char; is_intm := 0; scale := 1 |}.

(** A 2x3 and a 3x4 matrix, and views for the contraction of [M["ik"]]
    with [N["kj"]]. *)
Definition M23 : Tensor Z :=
  {| ndim := 2; len := [2; 3]; sym := [NS; NS]; data := replicate 6 1 |}.
Definition N34 : Tensor Z :=
  {| ndim := 2; len := [3; 4]; sym := [NS; NS]; data := replicate 12 1 |}.
Definition view_M : Idx_Tensor Z :=
  {| parent := 1%nat; idx_map := ["i"; "k"]%char; is_intm := 0; scale := 1 |}.
Definition view_N : Idx_Tensor Z :=
  {| parent := 2%nat; idx_map := ["k"; "j"]%char; is_intm := 0; scale := 1 |}.

Definition sparse_03 : Sparse_Tensor Z :=
  {| sp_parent := 2%nat; indices := [3; 0]; sp_scale := 1 |}.

(** ** Index-value pairs

    [CTF_pair] (the tensor header, lines 9-30): a global index [k] and a
    value [d], with the comparisons the class defines.  The comparison
    [==] of the values is that of [dtype]. *)

Class ScalarEq (dtype : Type) := {
  deq : dtype → dtype → bool
}.

#[export] Instance Z_ScalarEq : ScalarEq Z := {| deq := Z.eqb |}.

Module Pair.

Record CTF_pair (dtype : Type) := {
  k : Z;
  d : dtype
}.
Arguments k {dtype} _.
Arguments d {dtype} _.

(** [operator<] (lines 15-17) *)
Definition op_lt {dtype : Type} (this other : CTF_pair dtype) : bool :=
  k this <? k other.

(** [operator==] (lines 18-20) *)
Definition op_eq {dtype : Type} `{ScalarEq dtype} (this other : CTF_pair dtype)
  : bool :=
  (k this =? k other) && deq (d this) (d other).

(** [operator!=] (lines 21-23) *)
Definition op_ne {dtype : Type} `{ScalarEq dtype} (this other : CTF_pair dtype)
  : bool :=
  negb (op_eq this other).

End Pair.

(** [comp_CTF_pair(i, j)] (lines 26-30) *)
Definition comp_CTF_pair {dtype : Type} (i j : Pair.CTF_pair dtype) : bool :=
  Pair.k i <? Pair.k j.

(** The two matrices in a heap, and a view [N["jl"]] that shares no label
    with [M["ik"]]. *)
Definition heap_mat : State Z :=
  {| heap := {[ 1%nat := M23; 2%nat := N34 ]}; trace := [] |}.
Definition view_N' : Idx_Tensor Z :=
  {| parent := 2%nat; idx_map := ["j"; "l"]%char; is_intm := 0; scale := 1 |}.

(** * Properties *)

Section Properties.

Context {dtype : Type} {SC : Scalar dtype} {K : Kernel dtype} {N : Base dtype}.

Lemma deref_Some (st : State dtype) (p : ptr) (T : Tensor dtype) :
  heap st !! p = Some T → deref st p = Ok T.
Proof. unfold deref. by intros ->. Qed.

Lemma sum_call_Some (st : State dtype) (this A : ptr) (TA TB : Tensor dtype)
    (alpha beta : dtype) (idx_A idx_B : list ascii) :
  heap st !! this = Some TB → heap st !! A = Some TA →
  sum_call this alpha A idx_A beta idx_B st =
    Ok {| heap := <[this := Tensor_sum alpha TA idx_A beta idx_B TB]> (heap st);
          trace := trace st ++ [Call_sum this alpha A idx_A beta idx_B] |}.
Proof.
  intros HB HA. unfold sum_call.
  by rewrite (deref_Some _ _ _ HB), (deref_Some _ _ _ HA).
Qed.

(** C1. Executing a leaf [L] against a destination [D], both over live
    tensors, is the one call [D.parent->sum(L.scale, *L.parent, L.idx_map,
    D.scale, D.idx_map)]: the trace grows by exactly that call, the
    tensor of [D] becomes what [sum] makes of it, and no other tensor
    changes. *)
Theorem leaf_execute_is_one_sum (L D : Idx_Tensor dtype) (st : State dtype)
    (TA TB : Tensor dtype) :
  heap st !! parent L = Some TA →
  heap st !! parent D = Some TB →
  ∃ st',
    Idx_Tensor_execute L D st = Ok st'
    ∧ Idx_Tensor_execute L D st
      = sum_call (parent D) (scale L) (parent L) (idx_map L)
                 (scale D) (idx_map D) st
    ∧ trace st' = trace st ++ [Call_sum (parent D) (scale L) (parent L)
                                 (idx_map L) (scale D) (idx_map D)]
    ∧ heap st' !! parent D
      = Some (Tensor_sum (scale L) TA (idx_map L) (scale D) (idx_map D) TB)
    ∧ ∀ q, q ≠ parent D → heap st' !! q = heap st !! q.
Proof.
  intros HA HB. eexists. unfold Idx_Tensor_execute.
  rewrite (sum_call_Some _ _ _ _ _ _ _ _ _ HB HA).
  split; [reflexivity|]. split; [reflexivity|]. simpl.
  split; [reflexivity|]. split.
  - apply lookup_insert_eq.
  - intros q Hq. by apply lookup_insert_ne.
Qed.

(** ** The operators *)

(** C10. Whatever the scale of the destination view was, [=] leaves it 0
    and [+=] and [-=] leave it 1; the tensor, the labels and the
    intermediate flag of the view are kept.  The view is not restored:
    used afterwards as a source, it is summed with that scale. *)
Theorem operators_overwrite_scale (C : Idx_Tensor dtype) (t : Term dtype)
    (st : State dtype) :
  (op_assign C t st).1 = set_scale d0 C
  ∧ (op_add_assign C t st).1 = set_scale d1 C
  ∧ (op_sub_assign C t st).1 = set_scale d1 C
  ∧ scale (op_assign C t st).1 = d0
  ∧ scale (op_add_assign C t st).1 = d1
  ∧ scale (op_sub_assign C t st).1 = d1
  ∧ ∀ (D : Idx_Tensor dtype) (st2 : State dtype),
      Idx_Tensor_execute (op_assign C t st).1 D st2
      = sum_call (parent D) d0 (parent C) (idx_map C) (scale D) (idx_map D) st2
      ∧ Idx_Tensor_execute (op_add_assign C t st).1 D st2
        = sum_call (parent D) d1 (parent C) (idx_map C) (scale D) (idx_map D) st2
      ∧ Idx_Tensor_execute (op_sub_assign C t st).1 D st2
        = sum_call (parent D) d1 (parent C) (idx_map C) (scale D) (idx_map D) st2.
Proof. repeat split. Qed.


(** ** The constructors *)

Lemma memcpy_c_str_ge (s : string) (n : nat) :
  (n ≤ String.length s)%nat →
  memcpy (c_str s) n = Ok (take n (list_ascii_of_string s)).
Proof.
  intros Hn. unfold memcpy, c_str.
  assert (Hl : length (list_ascii_of_string s) = String.length s).
  { clear. induction s; simpl; congruence. }
  rewrite length_app, Hl. simpl.
  rewrite decide_True by lia.
  by rewrite take_app_le by lia.
Qed.

Lemma c_str_length (s : string) : length (c_str s) = S (String.length s).
Proof.
  unfold c_str. rewrite length_app. simpl.
  assert (Hl : length (list_ascii_of_string s) = String.length s).
  { clear. induction s; simpl; congruence. }
  lia.
Qed.

(** C9. With the copy flag unset the view borrows the tensor it is given;
    with the flag set the constructor reads the member [parent] of the
    view under construction, which is indeterminate, and no view of a
    copy of the given tensor results. *)
Theorem ctor_by_copy_flag (parent_ : ptr) (idx_map_ : list ascii) (copy : Z)
    (st : State dtype) :
  Idx_Tensor_ctor parent_ idx_map_ copy st
  = if copy =? 0 then
      T ← deref st parent_;
      idx ← memcpy idx_map_ (ndim T);
      Ok ({| parent := parent_; idx_map := idx; is_intm := 0; scale := d1 |}, st)
    else Undefined.
Proof.
  unfold Idx_Tensor_ctor. destruct (copy =? 0); reflexivity.
Qed.

(** The constructor from a view, in contrast, copies the tensor of the
    view it is given. *)
Lemma ctor_view_copies (other : Idx_Tensor dtype) (copy : Z) (st : State dtype)
    (T : Tensor dtype) :
  copy ≠ 0 →
  heap st !! parent other = Some T →
  (ndim T ≤ length (idx_map other))%nat →
  ∃ v st',
    Idx_Tensor_ctor_view other copy st = Ok (v, st')
    ∧ heap st !! parent v = None
    ∧ heap st' !! parent v = Some (Tensor_copy T true)
    ∧ idx_map v = take (ndim T) (idx_map other)
    ∧ scale v = scale other.
Proof.
  intros Hc HT Hn. unfold Idx_Tensor_ctor_view.
  apply Z.eqb_neq in Hc. rewrite Hc. simpl.
  rewrite (deref_Some _ _ _ HT). simpl.
  unfold deref. simpl. rewrite lookup_insert_eq. simpl.
  unfold memcpy. rewrite decide_True by done. simpl.
  do 2 eexists. split; [reflexivity|]. simpl.
  split; [|by rewrite lookup_insert_eq].
  apply not_elem_of_dom, is_fresh.
Qed.

(** C8. Over a live tensor and with the copy flag unset, the constructor
    makes no check of the length of the label string and never fails with
    a condition.  A string of at least [ndim] characters gives the view
    of its first [ndim] characters, which is the string itself when its
    length is [ndim]; a string of [ndim - 1] characters gives a view whose
    last label is the terminating NUL; a shorter string is read past its
    end. *)
Theorem ctor_checks_no_length (p : ptr) (s : string) (st : State dtype)
    (T : Tensor dtype) :
  heap st !! p = Some T →
  (∀ c, Idx_Tensor_ctor p (c_str s) 0 st ≠ Fail c)
  ∧ ((ndim T ≤ String.length s)%nat →
     Idx_Tensor_ctor p (c_str s) 0 st
     = Ok ({| parent := p; idx_map := take (ndim T) (list_ascii_of_string s);
              is_intm := 0; scale := d1 |}, st))
  ∧ (String.length s = ndim T →
     Idx_Tensor_ctor p (c_str s) 0 st
     = Ok ({| parent := p; idx_map := list_ascii_of_string s;
              is_intm := 0; scale := d1 |}, st))
  ∧ (S (String.length s) = ndim T →
     Idx_Tensor_ctor p (c_str s) 0 st
     = Ok ({| parent := p; idx_map := c_str s; is_intm := 0; scale := d1 |}, st))
  ∧ ((S (String.length s) < ndim T)%nat →
     Idx_Tensor_ctor p (c_str s) 0 st = Undefined).
Proof.
  intros HT. unfold Idx_Tensor_ctor. simpl.
  rewrite (deref_Some _ _ _ HT). simpl.
  assert (Hl : length (list_ascii_of_string s) = String.length s).
  { clear. induction s; simpl; congruence. }
  repeat split.
  - intros c. unfold memcpy. case_decide; simpl; discriminate.
  - intros Hn. by rewrite memcpy_c_str_ge.
  - intros Hn. rewrite memcpy_c_str_ge by lia. simpl.
    by rewrite <- Hn, <- Hl, firstn_all.
  - intros Hn. unfold memcpy. rewrite c_str_length, decide_True by lia. simpl.
    by rewrite <- Hn, <- c_str_length, firstn_all.
  - intros Hn. unfold memcpy. rewrite c_str_length, decide_False by lia.
    reflexivity.
Qed.

(** ** Assignment, accumulation and subtraction *)

Lemma Term_scale_set_scale (s : dtype) (t : Term dtype) :
  Term_scale (Term_set_scale s t) = s.
Proof. destruct t; reflexivity. Qed.

(** One outcome leaves one list of entries in the tensor of a view. *)
Lemma leaves_data_inj (C : Idx_Tensor dtype) (o : outcome (State dtype))
    (v v' : list dtype) :
  leaves_data C o v → leaves_data C o v' → v = v'.
Proof.
  intros (st1 & T1 & Ho1 & HT1 & <-) (st2 & T2 & Ho2 & HT2 & <-).
  rewrite Ho1 in Ho2. injection Ho2 as <-.
  rewrite HT1 in HT2. by injection HT2 as <-.
Qed.

(** C2. [C = t] sets the scale of [C] to 0 and runs [execute] on its
    by-value copy of [t], which is of the base class and keeps the scale
    of [t] only.  So two terms of the same scale give the same outcome,
    whatever their operands, and the tensor of [C] cannot hold the value
    of each of two terms whose values differ. *)
Theorem assign_ignores_operands (C : Idx_Tensor dtype) (t t' : Term dtype)
    (st : State dtype) :
  Term_scale t' = Term_scale t →
  op_assign C t st
  = (set_scale d0 C, base_execute (Term_scale t) (set_scale d0 C) st)
  ∧ op_assign C t' st = op_assign C t st
  ∧ ∀ v v' : list dtype, v ≠ v' →
      ¬ (leaves_data C (op_assign C t st).2 v
         ∧ leaves_data C (op_assign C t' st).2 v').
Proof.
  intros Hs. unfold op_assign, Term_execute. rewrite Hs.
  split; [reflexivity|]. split; [reflexivity|].
  intros v v' Hne [Hv Hv']. simpl in *.
  apply Hne. exact (leaves_data_inj _ _ _ _ Hv Hv').
Qed.

(** C3. [C += t] sets the scale of [C] to 1 and runs [execute] on its
    by-value copy of [t], which keeps the scale of [t] only.  So two
    terms of the same scale give the same outcome, and the tensor of [C]
    cannot hold its old entries plus the value of each of two terms whose
    values differ. *)
Theorem add_assign_ignores_operands (C : Idx_Tensor dtype) (t t' : Term dtype)
    (st : State dtype) :
  Term_scale t' = Term_scale t →
  op_add_assign C t st
  = (set_scale d1 C, base_execute (Term_scale t) (set_scale d1 C) st)
  ∧ op_add_assign C t' st = op_add_assign C t st
  ∧ ∀ v v' : list dtype, v ≠ v' →
      ¬ (leaves_data C (op_add_assign C t st).2 v
         ∧ leaves_data C (op_add_assign C t' st).2 v').
Proof.
  intros Hs. unfold op_add_assign, Term_execute. rewrite Hs.
  split; [reflexivity|]. split; [reflexivity|].
  intros v v' Hne [Hv Hv']. simpl in *.
  apply Hne. exact (leaves_data_inj _ _ _ _ Hv Hv').
Qed.

(** C4. [C -= t] sets the scale of [C] to 1, multiplies by -1 the scale
    of its by-value copy of [t] and runs [execute] on that copy, which
    keeps the scale only.  So two terms of the same scale give the same
    outcome, and the tensor of [C] cannot hold its old entries minus the
    value of each of two terms whose values differ. *)
Theorem sub_assign_ignores_operands (C : Idx_Tensor dtype) (t t' : Term dtype)
    (st : State dtype) :
  Term_scale t' = Term_scale t →
  op_sub_assign C t st
  = (set_scale d1 C,
     base_execute (Term_scale t * - d1)%D (set_scale d1 C) st)
  ∧ op_sub_assign C t' st = op_sub_assign C t st
  ∧ ∀ v v' : list dtype, v ≠ v' →
      ¬ (leaves_data C (op_sub_assign C t st).2 v
         ∧ leaves_data C (op_sub_assign C t' st).2 v').
Proof.
  intros Hs. unfold op_sub_assign, Term_execute.
  rewrite !Term_scale_set_scale, Hs.
  split; [reflexivity|]. split; [reflexivity|].
  intros v v' Hne [Hv Hv']. simpl in *.
  apply Hne. exact (leaves_data_inj _ _ _ _ Hv Hv').
Qed.


(** ** Sparse write and read *)

Lemma write_loop_length (alpha beta : dtype) (ks : list Z) (vs d : list dtype) :
  length (write_loop alpha beta ks vs d) = length d.
Proof.
  revert vs d. induction ks as [|k ks IH]; intros [|v vs] d; simpl; try done.
  by rewrite IH, length_insert.
Qed.

(** A position that is not written keeps its entry. *)
Lemma write_loop_other (alpha beta : dtype) (ks : list Z) (vs d : list dtype)
    (p : nat) :
  p ∉ Z.to_nat <$> ks →
  write_loop alpha beta ks vs d !! p = d !! p.
Proof.
  revert vs d. induction ks as [|k ks IH]; intros [|v vs] d Hp; simpl; try done.
  rewrite fmap_cons in Hp. apply not_elem_of_cons in Hp as [Hk Hp].
  rewrite IH by done. by apply list_lookup_insert_ne.
Qed.

Lemma in_range_Forall (n : nat) (ks : list Z) :
  Forall (λ k, 0 ≤ k < Z.of_nat n) ks → forallb (in_range n) ks = true.
Proof.
  induction 1 as [|k ks Hk _ IH]; simpl; [done|].
  rewrite IH, andb_true_r. unfold in_range.
  apply andb_true_iff. split; [apply Z.leb_le | apply Z.ltb_lt]; lia.
Qed.

Section Ring_sparse.

Hypothesis Rth : Scalar_ring dtype.

Add Ring dtype_ring_sparse : (Rth : ring_theory d0 d1 dadd dmul dsub dopp eq).



End Ring_sparse.

(** ** The intermediate of a contraction *)

Lemma free_dims_S (X Y : Idx_Tensor dtype) (TY : Tensor dtype) (m : nat) :
  free_dims X Y TY (S m)
  = free_dims X Y TY m ++ (if found (label X m) Y TY then [] else [m]).
Proof.
  unfold free_dims. rewrite seq_S, filter_app. simpl. f_equal.
  destruct (found (label X m) Y TY) eqn:E.
  - rewrite filter_cons_False; [done | by rewrite E].
  - rewrite filter_cons_True; [done | by rewrite E].
Qed.

Lemma free_dims_elem (X Y : Idx_Tensor dtype) (TY : Tensor dtype) (n i : nat) :
  i ∈ free_dims X Y TY n ↔ (i < n)%nat ∧ found (label X i) Y TY = false.
Proof.
  unfold free_dims. rewrite list_elem_of_filter, list_elem_of_In, in_seq.
  split; intros []; split; try done; lia.
Qed.

Lemma found_label (X : Idx_Tensor dtype) (TX : Tensor dtype) (i : nat) :
  (i < ndim TX)%nat → (ndim TX ≤ length (idx_map X))%nat →
  found (label X i) X TX = true.
Proof.
  intros Hi Hn. unfold found, label, rd. apply bool_decide_eq_true.
  destruct (lookup_lt_is_Some_2 (idx_map X) i) as [c Hc]; [lia|].
  rewrite Hc. simpl. apply list_elem_of_lookup. exists i.
  rewrite lookup_take_lt by done. done.
Qed.

Lemma rd_last {A : Type} (d : A) (l : list A) :
  (1 ≤ length l)%nat → rd d l (length l - 1) ∈ l.
Proof.
  intros Hl. unfold rd.
  destruct (lookup_lt_is_Some_2 l (length l - 1)) as [c Hc]; [lia|].
  rewrite Hc. simpl. apply list_elem_of_lookup. eauto.
Qed.

Lemma rd_snoc {A : Type} (d : A) (l : list A) (x : A) :
  rd d (l ++ [x]) (length (l ++ [x]) - 1) = x.
Proof.
  unfold rd. rewrite length_app. simpl.
  replace (length l + 1 - 1)%nat with (length l) by lia.
  by rewrite list_lookup_middle.
Qed.

(** The tags kept below [n] and below [n + 1] agree on the dimensions
    that are not the last one below [n]. *)
Lemma kept_tag_S (X : Idx_Tensor dtype) (TX : Tensor dtype)
    (Y : Idx_Tensor dtype) (TY : Tensor dtype) (n i : nat) :
  (S i < n)%nat ∨ found (label X n) Y TY = true →
  kept_tag X TX Y TY (S n) i = kept_tag X TX Y TY n i.
Proof.
  intros H. unfold kept_tag.
  destruct (decide (S i < n)%nat) as [Hlt|Hge].
  - assert (E1 : (S i <? S n)%nat = true) by (apply Nat.ltb_lt; lia).
    assert (E2 : (S i <? n)%nat = true) by (apply Nat.ltb_lt; lia).
    by rewrite E1, E2.
  - destruct H as [? | Hf]; [lia|].
    assert (E2 : (S i <? n)%nat = false) by (apply Nat.ltb_ge; lia).
    rewrite E2. simpl.
    destruct (decide (S i = n)) as [->|Hne].
    + by rewrite Hf, andb_false_r.
    + assert (E1 : (S i <? S n)%nat = false) by (apply Nat.ltb_ge; lia).
      by rewrite E1.
Qed.

Lemma kept_tag_map_S (X : Idx_Tensor dtype) (TX : Tensor dtype)
    (Y : Idx_Tensor dtype) (TY : Tensor dtype) (n : nat) (l : list nat) :
  (∀ i, i ∈ l → (S i < n)%nat ∨ found (label X n) Y TY = true) →
  map (kept_tag X TX Y TY (S n)) l = map (kept_tag X TX Y TY n) l.
Proof.
  intros H. apply map_ext_in. intros i Hi. apply kept_tag_S, H.
  by apply list_elem_of_In.
Qed.

Lemma kept_tag_last (X : Idx_Tensor dtype) (TX : Tensor dtype)
    (Y : Idx_Tensor dtype) (TY : Tensor dtype) (n : nat) :
  kept_tag X TX Y TY (S n) n = NS.
Proof.
  unfold kept_tag.
  assert (E : (S n <? S n)%nat = false) by (apply Nat.ltb_ge; lia).
  by rewrite E.
Qed.

Lemma insert_last {A : Type} (l : list A) (x y : A) (i : nat) :
  i = length l → <[i := y]> (l ++ [x]) = l ++ [y].
Proof.
  intros ->. rewrite insert_app_r_alt by lia.
  by replace (length l - length l)%nat with 0%nat by lia.
Qed.

(** A filling loop, run over the first [n] dimensions of [X], appends the
    labels, the lengths and the kept tags of the uncontracted ones. *)
Lemma fill_loop_prefix (X : Idx_Tensor dtype) (TX : Tensor dtype)
    (Y : Idx_Tensor dtype) (TY : Tensor dtype) (f0 : Fill) (n : nat) :
  (n ≤ ndim TX)%nat →
  (ndim TX ≤ length (idx_map X))%nat →
  (∀ c, c ∈ idx_C f0 → found c X TX = false) →
  length (sym_C f0) = length (idx_C f0) →
  foldl (fill_step X TX Y TY) f0 (seq 0 n)
  = {| idx_C := idx_C f0 ++ map (label X) (free_dims X Y TY n);
       len_C := len_C f0 ++ map (rd 0 (len TX)) (free_dims X Y TY n);
       sym_C := sym_C f0 ++ map (kept_tag X TX Y TY n) (free_dims X Y TY n) |}.
Proof.
  intros Hn Hwf Hf0 Hlen. induction n as [|n IH].
  { simpl. rewrite !app_nil_r. by destruct f0. }
  rewrite seq_S, foldl_app. simpl. rewrite IH by lia. clear IH.
  unfold fill_step at 1. simpl. rewrite (free_dims_S X Y TY n).
  destruct (found (label X n) Y TY) eqn:Hfn.
  { rewrite !app_nil_r. rewrite kept_tag_map_S; [done|]. intros; by right. }
  rewrite !map_app. simpl. rewrite kept_tag_last, !app_assoc.
  f_equal. f_equal.
  destruct n as [|m].
  { simpl. by rewrite andb_false_r. }
  replace (S m - 1)%nat with m by lia.
  rewrite (free_dims_S X Y TY m).
  assert (Hold : ∀ i, i ∈ free_dims X Y TY m →
                 (S i < S m)%nat ∨ found (label X (S m)) Y TY = true).
  { intros i Hi. apply free_dims_elem in Hi. left. lia. }
  destruct (found (label X m) Y TY) eqn:Hfm.
  - (* dimension m is contracted: the label before is another one *)
    rewrite !app_nil_r.
    rewrite (kept_tag_map_S X TX Y TY (S m)) by done.
    match goal with |- (if ?c then _ else _) = _ => assert (Hc : c = false) end.
    { set (l := idx_C f0 ++ map (label X) (free_dims X Y TY m)).
      destruct (decide (1 ≤ length l)%nat) as [E1|E1];
        [|by replace (length l) with 0%nat by lia].
      rewrite (bool_decide_eq_false_2 (rd "000"%char l (length l - 1) = label X m));
        [by rewrite andb_false_r|].
      intros Heq.
      pose proof (rd_last "000"%char l E1) as Hin. rewrite Heq in Hin.
      apply elem_of_app in Hin as [Hin|Hin].
      - apply Hf0 in Hin. rewrite found_label in Hin by (done || lia). done.
      - apply list_elem_of_In, in_map_iff in Hin as (i & Hi & Hin).
        apply list_elem_of_In, free_dims_elem in Hin as [_ Hin].
        rewrite Hi in Hin. congruence. }
    by rewrite Hc.
  - (* dimension m stays: its tag is set when it is not NS *)
    rewrite !map_app. simpl. rewrite !app_assoc.
    rewrite (kept_tag_map_S X TX Y TY (S m)) by done.
    rewrite kept_tag_last.
    assert (Hk : kept_tag X TX Y TY (S (S m)) m = rd NS (sym TX) m).
    { unfold kept_tag.
      assert (E : (S m <? S (S m))%nat = true) by (apply Nat.ltb_lt; lia).
      by rewrite E, Hfn. }
    rewrite Hk.
    pose proof (rd_snoc "000"%char (idx_C f0 ++ map (label X) (free_dims X Y TY m))
                  (label X m)) as Hlast.
    rewrite Hlast. rewrite bool_decide_eq_true_2 by done.
    rewrite (length_app (idx_C f0 ++ map (label X) (free_dims X Y TY m))).
    simpl length. rewrite Nat.add_1_r. simpl. rewrite Nat.sub_0_r.
    destruct (decide (rd NS (sym TX) m = NS)) as [Hns|Hns].
    + rewrite bool_decide_eq_true_2 by done. simpl. by rewrite Hns.
    + rewrite bool_decide_eq_false_2 by done. simpl.
      apply insert_last.
      rewrite !length_app, !length_map, Hlen. lia.
Qed.

Lemma count_free_length (A : Idx_Tensor dtype) (TA : Tensor dtype)
    (B : Idx_Tensor dtype) (TB : Tensor dtype) :
  count_free A TA B TB = length (free_dims A B TB (ndim TA)).
Proof.
  unfold count_free. induction (ndim TA) as [|n IH]; [done|].
  rewrite seq_S, foldl_app, free_dims_S, length_app. simpl. rewrite IH.
  destruct (found (label A n) B TB); simpl; lia.
Qed.

(** The two filling loops give the uncontracted dimensions of [A], then
    those of [B], each with its kept tag. *)
Lemma intermediate_shape_eq (A : Idx_Tensor dtype) (TA : Tensor dtype)
    (B : Idx_Tensor dtype) (TB : Tensor dtype) :
  (ndim TA ≤ length (idx_map A))%nat →
  (ndim TB ≤ length (idx_map B))%nat →
  intermediate_shape A TA B TB
  = {| idx_C := map (label A) (free_dims A B TB (ndim TA))
                ++ map (label B) (free_dims B A TA (ndim TB));
       len_C := map (rd 0 (len TA)) (free_dims A B TB (ndim TA))
                ++ map (rd 0 (len TB)) (free_dims B A TA (ndim TB));
       sym_C := map (kept_tag A TA B TB (ndim TA)) (free_dims A B TB (ndim TA))
                ++ map (kept_tag B TB A TA (ndim TB))
                     (free_dims B A TA (ndim TB)) |}.
Proof.
  intros HA HB. unfold intermediate_shape, fill_loop.
  rewrite (fill_loop_prefix A TA B TB) by (simpl; done || set_solver).
  simpl. rewrite (fill_loop_prefix B TB A TA); simpl; try done.
  - intros c Hc. apply list_elem_of_In, in_map_iff in Hc as (i & <- & Hi).
    by apply list_elem_of_In, free_dims_elem in Hi as [_ Hi].
  - by rewrite !length_map.
Qed.

(** Over live tensors and views with one label for each dimension,
    [get_intermediate] returns an intermediate view of a new tensor of
    zeros with the inferred labels, lengths and tags. *)
Lemma get_intermediate_Ok (A B : Idx_Tensor dtype) (st : State dtype)
    (TA TB : Tensor dtype) :
  heap st !! parent A = Some TA →
  heap st !! parent B = Some TB →
  (ndim TA ≤ length (idx_map A))%nat →
  (ndim TB ≤ length (idx_map B))%nat →
  let f := intermediate_shape A TA B TB in
  let p := fresh (dom (heap st)) in
  get_intermediate A B st
  = Ok ({| parent := p; idx_map := idx_C f; is_intm := 1; scale := d1 |},
        {| heap := <[p := Tensor_zeros (length (idx_C f)) (len_C f) (sym_C f)]>
                     (heap st);
           trace := trace st |}).
Proof.
  intros HA HB HwA HwB f p. unfold get_intermediate.
  rewrite (deref_Some _ _ _ HA), (deref_Some _ _ _ HB). simpl.
  fold f. fold p.
  assert (Hn : (count_free A TA B TB + count_free B TB A TA)%nat
               = length (idx_C f)).
  { unfold f. rewrite intermediate_shape_eq by done. simpl.
    by rewrite length_app, !length_map, !count_free_length. }
  rewrite Hn. unfold Idx_Tensor_ctor, deref. simpl.
  rewrite lookup_insert_eq. simpl.
  unfold memcpy. rewrite decide_True by done. simpl.
  by rewrite firstn_all.
Qed.

(** C6. In the intermediate of a contraction, an uncontracted dimension
    carries the tag that its operand has there exactly when the next
    dimension of the operand is uncontracted too, and [NS] otherwise.  So
    when the dimension after it is contracted away, the dimension carries
    [NS], whatever tag the pair had. *)
Theorem intermediate_tags (A B : Idx_Tensor dtype) (st : State dtype)
    (TA TB : Tensor dtype) :
  heap st !! parent A = Some TA →
  heap st !! parent B = Some TB →
  length (idx_map A) = ndim TA →
  length (idx_map B) = ndim TB →
  ∃ (out : Idx_Tensor dtype) (st' : State dtype) (TC : Tensor dtype),
    get_intermediate A B st = Ok (out, st')
    ∧ heap st' !! parent out = Some TC
    ∧ idx_map out = map (label A) (free_dims A B TB (ndim TA))
                    ++ map (label B) (free_dims B A TA (ndim TB))
    ∧ (∀ p i, free_dims A B TB (ndim TA) !! p = Some i →
         sym TC !! p = Some (kept_tag A TA B TB (ndim TA) i))
    ∧ (∀ p j, free_dims B A TA (ndim TB) !! p = Some j →
         sym TC !! (length (free_dims A B TB (ndim TA)) + p)%nat
         = Some (kept_tag B TB A TA (ndim TB) j))
    ∧ (∀ p i, free_dims A B TB (ndim TA) !! p = Some i →
         found (label A (S i)) B TB = true →
         sym TC !! p = Some NS)
    ∧ (∀ p j, free_dims B A TA (ndim TB) !! p = Some j →
         found (label B (S j)) A TA = true →
         sym TC !! (length (free_dims A B TB (ndim TA)) + p)%nat = Some NS).
Proof.
  intros HA HB HwA HwB.
  rewrite (get_intermediate_Ok A B st TA TB) by (done || lia).
  do 3 eexists. split; [reflexivity|]. simpl.
  split; [apply lookup_insert_eq|]. simpl.
  rewrite intermediate_shape_eq by lia. simpl.
  assert (HtA : ∀ p i, free_dims A B TB (ndim TA) !! p = Some i →
      (map (kept_tag A TA B TB (ndim TA)) (free_dims A B TB (ndim TA))
       ++ map (kept_tag B TB A TA (ndim TB)) (free_dims B A TA (ndim TB))) !! p
      = Some (kept_tag A TA B TB (ndim TA) i)).
  { intros p i Hp. rewrite lookup_app_l.
    - change (map ?f ?l) with (f <$> l). by rewrite list_lookup_fmap, Hp.
    - rewrite length_map. by apply lookup_lt_Some in Hp. }
  assert (HtB : ∀ p j, free_dims B A TA (ndim TB) !! p = Some j →
      (map (kept_tag A TA B TB (ndim TA)) (free_dims A B TB (ndim TA))
       ++ map (kept_tag B TB A TA (ndim TB)) (free_dims B A TA (ndim TB)))
        !! (length (free_dims A B TB (ndim TA)) + p)%nat
      = Some (kept_tag B TB A TA (ndim TB) j)).
  { intros p j Hp.
    rewrite <- (length_map (kept_tag A TA B TB (ndim TA))), lookup_app_r by lia.
    replace (_ + p - _)%nat with p by lia.
    change (map ?f ?l) with (f <$> l). by rewrite list_lookup_fmap, Hp. }
  split; [done|]. split; [done|]. split; [done|]. split.
  - intros p i Hp Hf. rewrite (HtA p i Hp). unfold kept_tag.
    by rewrite Hf, andb_false_r.
  - intros p j Hp Hf. rewrite (HtB p j Hp). unfold kept_tag.
    by rewrite Hf, andb_false_r.
Qed.

(** * Further properties *)

(** ** Index-value pairs *)

(** X1. [operator<] of pairs orders them by their index alone: it is
    irreflexive, asymmetric and transitive, two pairs are unordered
    exactly when they have the same index, and [comp_CTF_pair] is the
    same comparison.  Pairs that are [==] have the same index and so are
    unordered, and [!=] is the negation of [==]. *)
Theorem pair_order `{ScalarEq dtype} (a b c : Pair.CTF_pair dtype) :
  Pair.op_lt a a = false
  ∧ (Pair.op_lt a b = true → Pair.op_lt b a = false)
  ∧ (Pair.op_lt a b = true → Pair.op_lt b c = true → Pair.op_lt a c = true)
  ∧ (Pair.op_lt a b = false ∧ Pair.op_lt b a = false ↔ Pair.k a = Pair.k b)
  ∧ comp_CTF_pair a b = Pair.op_lt a b
  ∧ (Pair.op_eq a b = true →
     Pair.k a = Pair.k b ∧ Pair.op_lt a b = false ∧ Pair.op_lt b a = false)
  ∧ Pair.op_ne a b = negb (Pair.op_eq a b).
Proof.
  unfold Pair.op_lt, Pair.op_eq, Pair.op_ne, comp_CTF_pair.
  split; [apply Z.ltb_irrefl|].
  split.
  { intros Hab. apply Z.ltb_lt in Hab. apply Z.ltb_ge. lia. }
  split.
  { intros Hab Hbc. apply Z.ltb_lt in Hab, Hbc. apply Z.ltb_lt. lia. }
  split.
  { split.
    - intros [Hab Hba]. apply Z.ltb_ge in Hab, Hba. lia.
    - intros Hk. split; apply Z.ltb_ge; lia. }
  split; [reflexivity|].
  split; [|reflexivity].
  intros Heq. apply andb_true_iff in Heq as [Hk _]. apply Z.eqb_eq in Hk.
  split; [done|]. split; apply Z.ltb_ge; lia.
Qed.

(** ** Leaves and operators on the heap *)

(** X2. A leaf execution that succeeds keeps the set of live tensors, and
    every tensor keeps its number of dimensions, its lengths, its tags
    and its number of entries: nothing is allocated, freed or reshaped. *)
Theorem execute_keeps_shapes (L D : Idx_Tensor dtype) (st st' : State dtype) :
  Idx_Tensor_execute L D st = Ok st' →
  dom (heap st') = dom (heap st)
  ∧ ∀ (q : ptr) (T : Tensor dtype), heap st !! q = Some T →
      ∃ T' : Tensor dtype,
        heap st' !! q = Some T' ∧ same_shape T T'
        ∧ length (data T') = length (data T).
Proof.
  unfold Idx_Tensor_execute, sum_call, deref.
  destruct (heap st !! parent D) as [TB|] eqn:HB; [|discriminate]. simpl.
  destruct (heap st !! parent L) as [TA|] eqn:HA; [|discriminate]. simpl.
  intros [= <-]. simpl. split.
  - apply dom_insert_lookup_L. by rewrite HB.
  - intros q T Hq. destruct (decide (q = parent D)) as [->|Hne].
    + rewrite lookup_insert_eq. eexists. split; [reflexivity|].
      rewrite HB in Hq. injection Hq as <-. simpl.
      split; [done|]. apply length_imap.
    + rewrite lookup_insert_ne by done. exists T. by repeat split.
Qed.

Section Ring_operators.

Hypothesis Rth : Scalar_ring dtype.

Add Ring dtype_ring_operators :
  (Rth : ring_theory d0 d1 dadd dmul dsub dopp eq).

(** X7. A view made by the constructor over a tensor, with the copy flag
    unset, has scale 1 and refers to that tensor: executing a leaf
    against it adds the scaled leaf to the entries of the tensor the
    caller gave. *)
Theorem fresh_view_accumulates (p : ptr) (s : string) (L : Idx_Tensor dtype)
    (st : State dtype) (T TA : Tensor dtype) :
  heap st !! p = Some T →
  String.length s = ndim T →
  heap st !! parent L = Some TA →
  ∃ (v : Idx_Tensor dtype) (st' : State dtype) (T' : Tensor dtype),
    Idx_Tensor_ctor p (c_str s) 0 st = Ok (v, st)
    ∧ Idx_Tensor_execute L v st = Ok st'
    ∧ heap st' !! p = Some T'
    ∧ same_shape T T'
    ∧ data T'
      = imap (λ g b,
          (b + scale L * sum_kernel TA (idx_map L) (len T) (sym T)
                           (list_ascii_of_string s) g)%D) (data T).
Proof.
  intros HT Hs HA. unfold Idx_Tensor_ctor. simpl.
  rewrite (deref_Some _ _ _ HT). simpl.
  rewrite memcpy_c_str_ge by lia. simpl.
  assert (Hl : length (list_ascii_of_string s) = String.length s).
  { clear. induction s; simpl; congruence. }
  rewrite <- Hs, <- Hl, firstn_all.
  do 3 eexists. split; [reflexivity|]. unfold Idx_Tensor_execute. simpl.
  rewrite (sum_call_Some _ _ _ _ _ _ _ _ _ HT HA).
  split; [reflexivity|]. simpl. rewrite lookup_insert_eq.
  split; [reflexivity|]. split; [done|]. simpl.
  apply imap_ext. intros g b _. simpl. ring.
Qed.

End Ring_operators.

(** ** The constructor from a view *)

(** X8. With the copy flag unset, the constructor from a view leaves the
    heap as it is and gives a view of the same tensor with the same
    intermediate flag and scale and the first [ndim] labels: a view with
    one label for each dimension is copied as it is, and one with fewer
    labels is read past its end. *)
Theorem view_ctor_borrows (other : Idx_Tensor dtype) (st : State dtype)
    (T : Tensor dtype) :
  heap st !! parent other = Some T →
  ((ndim T ≤ length (idx_map other))%nat →
   Idx_Tensor_ctor_view other 0 st
   = Ok ({| parent := parent other;
            idx_map := take (ndim T) (idx_map other);
            is_intm := is_intm other; scale := scale other |}, st))
  ∧ (length (idx_map other) = ndim T →
     Idx_Tensor_ctor_view other 0 st = Ok (other, st))
  ∧ ((length (idx_map other) < ndim T)%nat →
     Idx_Tensor_ctor_view other 0 st = Undefined).
Proof.
  intros HT. unfold Idx_Tensor_ctor_view. simpl.
  rewrite (deref_Some _ _ _ HT). simpl. unfold memcpy.
  split; [|split].
  - intros Hn. by rewrite decide_True by done.
  - intros Hn. rewrite decide_True by lia. simpl.
    rewrite <- Hn, firstn_all. by destruct other.
  - intros Hn. by rewrite decide_False by lia.
Qed.

(** X9. With the copy flag set, the constructor from a view places an
    equal tensor at an address that was not live, and gives a view of it
    with the labels, flag and scale of the given view.  Every tensor that
    was live stays as it was, and a leaf executed against the new view
    leaves the tensor of the given view untouched. *)
Theorem view_ctor_copy_is_private (other : Idx_Tensor dtype) (copy : Z)
    (st : State dtype) (T : Tensor dtype) :
  copy ≠ 0 →
  heap st !! parent other = Some T →
  (ndim T ≤ length (idx_map other))%nat →
  ∃ (v : Idx_Tensor dtype) (st' : State dtype),
    Idx_Tensor_ctor_view other copy st = Ok (v, st')
    ∧ heap st !! parent v = None
    ∧ parent v ≠ parent other
    ∧ heap st' !! parent v = Some T
    ∧ (∀ (q : ptr) (T0 : Tensor dtype),
         heap st !! q = Some T0 → heap st' !! q = Some T0)
    ∧ trace st' = trace st
    ∧ idx_map v = take (ndim T) (idx_map other)
    ∧ is_intm v = is_intm other
    ∧ scale v = scale other
    ∧ ∀ (L : Idx_Tensor dtype) (st'' : State dtype),
        Idx_Tensor_execute L v st' = Ok st'' →
        heap st'' !! parent other = Some T.
Proof.
  intros Hc HT Hn. unfold Idx_Tensor_ctor_view.
  apply Z.eqb_neq in Hc. rewrite Hc. simpl.
  rewrite (deref_Some _ _ _ HT). simpl.
  unfold deref. simpl. rewrite lookup_insert_eq. simpl.
  unfold memcpy. rewrite decide_True by done. simpl.
  assert (Hfresh : heap st !! fresh (dom (heap st)) = None)
    by apply not_elem_of_dom, is_fresh.
  assert (Hne : fresh (dom (heap st)) ≠ parent other) by congruence.
  assert (HcopyT : Tensor_copy T true = T) by (by destruct T).
  do 2 eexists. split; [reflexivity|]. simpl.
  split; [done|]. split; [done|].
  split; [by rewrite lookup_insert_eq, HcopyT|].
  split.
  { intros q T0 Hq. rewrite lookup_insert_ne; [done|]. congruence. }
  repeat (split; [reflexivity|]).
  intros L st''. unfold Idx_Tensor_execute, sum_call, deref. simpl.
  rewrite lookup_insert_eq. simpl.
  destruct (<[_ := _]> (heap st) !! parent L); [|discriminate]. simpl.
  intros [= <-]. simpl. by rewrite !lookup_insert_ne.
Qed.

(** ** More on the intermediate of a contraction *)

Lemma found_elem (c : ascii) (Y : Idx_Tensor dtype) (TY : Tensor dtype) :
  length (idx_map Y) = ndim TY →
  found c Y TY = true ↔ c ∈ idx_map Y.
Proof.
  intros Hl. unfold found. rewrite <- Hl, firstn_all.
  apply bool_decide_eq_true.
Qed.

Lemma label_lookup (X : Idx_Tensor dtype) (i : nat) :
  (i < length (idx_map X))%nat → idx_map X !! i = Some (label X i).
Proof.
  intros Hi. unfold label, rd.
  destruct (lookup_lt_is_Some_2 (idx_map X) i Hi) as [c Hc]. by rewrite Hc.
Qed.

Lemma rd_lookup {A : Type} (x : A) (l : list A) (i : nat) :
  (i < length l)%nat → l !! i = Some (rd x l i).
Proof.
  intros Hi. unfold rd.
  destruct (lookup_lt_is_Some_2 l i Hi) as [c Hc]. by rewrite Hc.
Qed.

Lemma label_elem (X : Idx_Tensor dtype) (c : ascii) :
  c ∈ idx_map X ↔ ∃ i, (i < length (idx_map X))%nat ∧ label X i = c.
Proof.
  rewrite list_elem_of_lookup. split.
  - intros [i Hi]. exists i. pose proof (lookup_lt_Some _ _ _ Hi) as Hlt.
    split; [done|]. rewrite (label_lookup X i Hlt) in Hi. congruence.
  - intros (i & Hi & <-). exists i. by apply label_lookup.
Qed.

Lemma free_labels_elem (X Y : Idx_Tensor dtype) (TX TY : Tensor dtype)
    (c : ascii) :
  length (idx_map X) = ndim TX →
  length (idx_map Y) = ndim TY →
  c ∈ map (label X) (free_dims X Y TY (ndim TX))
  ↔ c ∈ idx_map X ∧ c ∉ idx_map Y.
Proof.
  intros HX HY. rewrite list_elem_of_In, in_map_iff. split.
  - intros (i & <- & Hi). apply list_elem_of_In, free_dims_elem in Hi as [Hi Hf].
    split.
    + apply label_elem. exists i. split; [lia|done].
    + rewrite <- (found_elem _ Y TY) by done. by rewrite Hf.
  - intros [Hc Hn]. apply label_elem in Hc as (i & Hi & <-). exists i.
    split; [done|]. apply list_elem_of_In, free_dims_elem. split; [lia|].
    apply not_true_is_false. by rewrite found_elem.
Qed.

(** X10. The labels of the intermediate are the labels that occur in
    exactly one of the two operands: those of [A] and not of [B], and
    those of [B] and not of [A]. *)
Theorem intermediate_labels (A B : Idx_Tensor dtype) (st : State dtype)
    (TA TB : Tensor dtype) :
  heap st !! parent A = Some TA →
  heap st !! parent B = Some TB →
  length (idx_map A) = ndim TA →
  length (idx_map B) = ndim TB →
  ∃ (out : Idx_Tensor dtype) (st' : State dtype),
    get_intermediate A B st = Ok (out, st')
    ∧ ∀ c : ascii,
        c ∈ idx_map out
        ↔ (c ∈ idx_map A ∧ c ∉ idx_map B) ∨ (c ∈ idx_map B ∧ c ∉ idx_map A).
Proof.
  intros HA HB HwA HwB.
  rewrite (get_intermediate_Ok A B st TA TB) by (done || lia).
  do 2 eexists. split; [reflexivity|]. simpl.
  rewrite intermediate_shape_eq by lia. simpl. intros c.
  rewrite elem_of_app, !free_labels_elem by done. done.
Qed.

(** X11. The intermediate is well formed: its tensor has as many lengths
    and tags as dimensions and its view has one label for each.  Each of
    its dimensions has the label and the length of the dimension of the
    operand it comes from, the dimensions of [A] first and in their
    order, then those of [B]. *)
Theorem intermediate_lengths (A B : Idx_Tensor dtype) (st : State dtype)
    (TA TB : Tensor dtype) :
  heap st !! parent A = Some TA →
  heap st !! parent B = Some TB →
  length (idx_map A) = ndim TA → length (len TA) = ndim TA →
  length (idx_map B) = ndim TB → length (len TB) = ndim TB →
  ∃ (out : Idx_Tensor dtype) (st' : State dtype) (TC : Tensor dtype),
    get_intermediate A B st = Ok (out, st')
    ∧ heap st' !! parent out = Some TC
    ∧ length (idx_map out) = ndim TC
    ∧ length (len TC) = ndim TC
    ∧ length (sym TC) = ndim TC
    ∧ (∀ p i, free_dims A B TB (ndim TA) !! p = Some i →
         idx_map out !! p = idx_map A !! i ∧ len TC !! p = len TA !! i)
    ∧ (∀ p j, free_dims B A TA (ndim TB) !! p = Some j →
         idx_map out !! (length (free_dims A B TB (ndim TA)) + p)%nat
         = idx_map B !! j
         ∧ len TC !! (length (free_dims A B TB (ndim TA)) + p)%nat
           = len TB !! j).
Proof.
  intros HA HB HwA HlA HwB HlB.
  rewrite (get_intermediate_Ok A B st TA TB) by (done || lia).
  do 3 eexists. split; [reflexivity|]. simpl.
  split; [apply lookup_insert_eq|]. simpl.
  rewrite intermediate_shape_eq by lia. simpl.
  rewrite !length_app, !length_map.
  split; [done|]. split; [done|]. split; [done|]. split.
  - intros p i Hp.
    assert (Hi : (i < ndim TA)%nat).
    { apply list_elem_of_lookup_2, free_dims_elem in Hp. tauto. }
    rewrite !lookup_app_l by (rewrite length_map; by apply lookup_lt_Some in Hp).
    change (map ?f ?l) with (f <$> l). rewrite !list_lookup_fmap, Hp. simpl.
    split; symmetry; [apply label_lookup | apply rd_lookup]; lia.
  - intros p j Hp.
    assert (Hj : (j < ndim TB)%nat).
    { apply list_elem_of_lookup_2, free_dims_elem in Hp. tauto. }
    split.
    + rewrite <- (length_map (label A)), lookup_app_r by lia.
      replace (_ + p - _)%nat with p by lia.
      change (map ?f ?l) with (f <$> l). rewrite list_lookup_fmap, Hp. simpl.
      symmetry. apply label_lookup. lia.
    + rewrite <- (length_map (rd 0 (len TA))), lookup_app_r by lia.
      replace (_ + p - _)%nat with p by lia.
      change (map ?f ?l) with (f <$> l). rewrite list_lookup_fmap, Hp. simpl.
      symmetry. apply rd_lookup. lia.
Qed.

(** X12. [get_intermediate] makes no call of a primitive and changes no
    live tensor: it places one new tensor at an address that was not
    live, with every entry zero, as many as the product of its lengths,
    and returns a view of it that is marked intermediate and has scale
    1. *)
Theorem intermediate_is_new_and_zero (A B : Idx_Tensor dtype)
    (st : State dtype) (TA TB : Tensor dtype) :
  heap st !! parent A = Some TA →
  heap st !! parent B = Some TB →
  (ndim TA ≤ length (idx_map A))%nat →
  (ndim TB ≤ length (idx_map B))%nat →
  ∃ (out : Idx_Tensor dtype) (st' : State dtype) (TC : Tensor dtype),
    get_intermediate A B st = Ok (out, st')
    ∧ heap st !! parent out = None
    ∧ heap st' !! parent out = Some TC
    ∧ (∀ (q : ptr) (T : Tensor dtype),
         heap st !! q = Some T → heap st' !! q = Some T)
    ∧ trace st' = trace st
    ∧ is_intm out = 1
    ∧ scale out = d1
    ∧ data TC = replicate (Z.to_nat (foldr Z.mul 1 (len TC))) d0.
Proof.
  intros HA HB HwA HwB.
  rewrite (get_intermediate_Ok A B st TA TB) by done.
  assert (Hfresh : heap st !! fresh (dom (heap st)) = None)
    by apply not_elem_of_dom, is_fresh.
  do 3 eexists. split; [reflexivity|]. simpl.
  split; [done|]. split; [apply lookup_insert_eq|].
  split; [|done].
  intros q T Hq. rewrite lookup_insert_ne; [done|]. congruence.
Qed.

Lemma free_dims_NoDup_labels (X Y : Idx_Tensor dtype) (TX TY : Tensor dtype) :
  length (idx_map X) = ndim TX →
  NoDup (idx_map X) →
  NoDup (map (label X) (free_dims X Y TY (ndim TX))).
Proof.
  intros HX Hnd. change (map ?f ?l) with (f <$> l).
  apply NoDup_fmap_2_strong.
  - intros i j Hi Hj Heq.
    apply free_dims_elem in Hi as [Hi _]. apply free_dims_elem in Hj as [Hj _].
    rewrite NoDup_alt in Hnd. apply (Hnd i j (label X i)).
    + apply label_lookup. lia.
    + rewrite Heq. apply label_lookup. lia.
  - unfold free_dims. apply NoDup_filter, NoDup_seq.
Qed.

(** X13. When neither operand repeats a label, the intermediate repeats
    none. *)
Theorem intermediate_labels_NoDup (A B : Idx_Tensor dtype) (st : State dtype)
    (TA TB : Tensor dtype) :
  heap st !! parent A = Some TA →
  heap st !! parent B = Some TB →
  length (idx_map A) = ndim TA →
  length (idx_map B) = ndim TB →
  NoDup (idx_map A) →
  NoDup (idx_map B) →
  ∃ (out : Idx_Tensor dtype) (st' : State dtype),
    get_intermediate A B st = Ok (out, st') ∧ NoDup (idx_map out).
Proof.
  intros HA HB HwA HwB HnA HnB.
  rewrite (get_intermediate_Ok A B st TA TB) by (done || lia).
  do 2 eexists. split; [reflexivity|]. simpl.
  rewrite intermediate_shape_eq by lia. simpl.
  apply NoDup_app. split; [by apply free_dims_NoDup_labels|].
  split; [|by apply free_dims_NoDup_labels].
  intros c Hc Hc'.
  apply free_labels_elem in Hc as [_ Hc]; [|done..].
  apply free_labels_elem in Hc' as [Hc' _]; done.
Qed.

Lemma free_dims_nil (X Y : Idx_Tensor dtype) (TX TY : Tensor dtype) :
  length (idx_map X) = ndim TX →
  length (idx_map Y) = ndim TY →
  (∀ c, c ∈ idx_map X → c ∈ idx_map Y) →
  free_dims X Y TY (ndim TX) = [].
Proof.
  intros HX HY Hsub.
  destruct (free_dims X Y TY (ndim TX)) as [|i l] eqn:E; [done|].
  assert (Hi : i ∈ free_dims X Y TY (ndim TX)) by (rewrite E; left).
  apply free_dims_elem in Hi as [Hi Hf].
  assert (Hin : label X i ∈ idx_map Y).
  { apply Hsub, label_elem. exists i. split; [lia|done]. }
  apply (found_elem _ Y TY) in Hin; [|done]. congruence.
Qed.

Lemma free_dims_all (X Y : Idx_Tensor dtype) (TX TY : Tensor dtype) :
  length (idx_map X) = ndim TX →
  length (idx_map Y) = ndim TY →
  (∀ c, c ∈ idx_map X → c ∉ idx_map Y) →
  free_dims X Y TY (ndim TX) = seq 0 (ndim TX).
Proof.
  intros HX HY Hdis.
  assert (Hn : ∀ n, (n ≤ ndim TX)%nat → free_dims X Y TY n = seq 0 n).
  { induction n as [|n IH]; intros Hle; [done|].
    rewrite free_dims_S, seq_S, IH by lia. simpl.
    assert (Hf : found (label X n) Y TY = false).
    { apply not_true_is_false. rewrite found_elem by done.
      apply Hdis, label_elem. exists n. split; [lia|done]. }
    by rewrite Hf. }
  by apply Hn.
Qed.

Lemma map_rd_seq {A : Type} (x : A) (l : list A) :
  map (rd x l) (seq 0 (length l)) = l.
Proof.
  apply list_eq. intros i. change (map ?f ?l) with (f <$> l).
  rewrite list_lookup_fmap.
  destruct (decide (i < length l)%nat) as [Hi|Hi].
  - rewrite lookup_seq_lt by done. simpl. symmetry. by apply rd_lookup.
  - rewrite !lookup_ge_None_2; [done | lia | rewrite length_seq; lia].
Qed.

(** X14. When the two operands have the same labels, every dimension is
    contracted away and the intermediate is a scalar: a tensor of no
    dimension with the single entry 0, under a view without labels. *)
Theorem intermediate_of_full_contraction (A B : Idx_Tensor dtype)
    (st : State dtype) (TA TB : Tensor dtype) :
  heap st !! parent A = Some TA →
  heap st !! parent B = Some TB →
  length (idx_map A) = ndim TA →
  length (idx_map B) = ndim TB →
  (∀ c, c ∈ idx_map A ↔ c ∈ idx_map B) →
  ∃ (out : Idx_Tensor dtype) (st' : State dtype),
    get_intermediate A B st = Ok (out, st')
    ∧ idx_map out = []
    ∧ heap st' !! parent out
      = Some {| ndim := 0; len := []; sym := []; data := [d0] |}.
Proof.
  intros HA HB HwA HwB Hsame.
  rewrite (get_intermediate_Ok A B st TA TB) by (done || lia).
  do 2 eexists. split; [reflexivity|]. simpl.
  rewrite intermediate_shape_eq by lia. simpl.
  rewrite (free_dims_nil A B TA TB), (free_dims_nil B A TB TA);
    try done; try (intros c; apply Hsame).
  simpl. split; [done|]. by rewrite lookup_insert_eq.
Qed.

Lemma kept_tags_all (X Y : Idx_Tensor dtype) (TX TY : Tensor dtype) :
  length (idx_map X) = ndim TX →
  length (idx_map Y) = ndim TY →
  length (sym TX) = ndim TX →
  (∀ c, c ∈ idx_map X → c ∉ idx_map Y) →
  (∀ i, S i = ndim TX → sym TX !! i = Some NS) →
  map (kept_tag X TX Y TY (ndim TX)) (seq 0 (ndim TX)) = sym TX.
Proof.
  intros HX HY Hs Hdis Hlast. apply list_eq. intros i.
  change (map ?f ?l) with (f <$> l). rewrite list_lookup_fmap.
  destruct (decide (i < ndim TX)%nat) as [Hi|Hi].
  - rewrite lookup_seq_lt by done. simpl. unfold kept_tag.
    destruct (decide (S i < ndim TX)%nat) as [Hlt|Hge].
    + assert (E : (S i <? ndim TX)%nat = true) by (by apply Nat.ltb_lt).
      assert (Hf : found (label X (S i)) Y TY = false).
      { apply not_true_is_false. rewrite found_elem by done.
        apply Hdis, label_elem. exists (S i). split; [lia|done]. }
      rewrite E, Hf. simpl. symmetry. apply rd_lookup. lia.
    + assert (E : (S i <? ndim TX)%nat = false) by (apply Nat.ltb_ge; lia).
      rewrite E. simpl. symmetry. apply Hlast. lia.
  - rewrite !lookup_ge_None_2; [done | lia | rewrite length_seq; lia].
Qed.

(** X15. When the two operands share no label, nothing is contracted and
    the intermediate is the outer product shape: the labels, the lengths
    and the tags of [A] followed by those of [B], for tensors whose last
    tag is [NS]. *)
Theorem intermediate_of_outer_product (A B : Idx_Tensor dtype)
    (st : State dtype) (TA TB : Tensor dtype) :
  heap st !! parent A = Some TA →
  heap st !! parent B = Some TB →
  length (idx_map A) = ndim TA → length (len TA) = ndim TA →
  length (sym TA) = ndim TA →
  length (idx_map B) = ndim TB → length (len TB) = ndim TB →
  length (sym TB) = ndim TB →
  (∀ i, S i = ndim TA → sym TA !! i = Some NS) →
  (∀ j, S j = ndim TB → sym TB !! j = Some NS) →
  (∀ c, c ∈ idx_map A → c ∉ idx_map B) →
  ∃ (out : Idx_Tensor dtype) (st' : State dtype) (TC : Tensor dtype),
    get_intermediate A B st = Ok (out, st')
    ∧ heap st' !! parent out = Some TC
    ∧ idx_map out = idx_map A ++ idx_map B
    ∧ ndim TC = (ndim TA + ndim TB)%nat
    ∧ len TC = len TA ++ len TB
    ∧ sym TC = sym TA ++ sym TB.
Proof.
  intros HA HB HwA HlA HsA HwB HlB HsB HlastA HlastB Hdis.
  assert (Hdis' : ∀ c, c ∈ idx_map B → c ∉ idx_map A).
  { intros c Hc Hc'. by apply (Hdis c). }
  rewrite (get_intermediate_Ok A B st TA TB) by (done || lia).
  do 3 eexists. split; [reflexivity|]. simpl.
  split; [apply lookup_insert_eq|]. simpl.
  rewrite intermediate_shape_eq by lia. simpl.
  rewrite (free_dims_all A B TA TB), (free_dims_all B A TB TA) by done.
  rewrite (kept_tags_all A B TA TB), (kept_tags_all B A TB TA) by done.
  assert (EA : map (label A) (seq 0 (ndim TA)) = idx_map A).
  { rewrite <- HwA. apply (map_rd_seq "000"%char). }
  assert (EB : map (label B) (seq 0 (ndim TB)) = idx_map B).
  { rewrite <- HwB. apply (map_rd_seq "000"%char). }
  assert (LA : map (rd 0 (len TA)) (seq 0 (ndim TA)) = len TA).
  { rewrite <- HlA. apply map_rd_seq. }
  assert (LB : map (rd 0 (len TB)) (seq 0 (ndim TB)) = len TB).
  { rewrite <- HlB. apply map_rd_seq. }
  rewrite EA, EB, LA, LB, length_app, HwA, HwB. done.
Qed.

(** ** More on sparse write and read *)

Lemma read_loop_length (alpha beta : dtype) (ks : list Z) (vs d : list dtype) :
  length (read_loop alpha beta ks vs d) = length vs.
Proof.
  revert vs. induction ks as [|k ks IH]; intros [|v vs]; simpl; try done.
  by rewrite IH.
Qed.

Lemma read_loop_lookup (alpha beta : dtype) (ks : list Z) (vs d : list dtype)
    (j : nat) (k : Z) (o : dtype) :
  ks !! j = Some k → vs !! j = Some o →
  read_loop alpha beta ks vs d !! j
  = Some (alpha * rd d0 d (Z.to_nat k) + beta * o)%D.
Proof.
  revert vs j. induction ks as [|k0 ks IH]; intros [|v vs] [|j] Hk Ho;
    simpl in *; try done.
  - by injection Hk as ->; injection Ho as ->.
  - by apply IH.
Qed.

Lemma write_loop_lookup (alpha beta : dtype) (ks : list Z) (vs d : list dtype)
    (j : nat) (k : Z) (v x : dtype) :
  NoDup ks →
  Forall (λ k, 0 ≤ k < Z.of_nat (length d)) ks →
  ks !! j = Some k → vs !! j = Some v → d !! Z.to_nat k = Some x →
  write_loop alpha beta ks vs d !! Z.to_nat k = Some (beta * x + alpha * v)%D.
Proof.
  revert vs d j. induction ks as [|k0 ks IH]; intros [|v0 vs] d [|j]
    Hnd Hin Hk Hv Hx; simpl in *; try done.
  - injection Hk as ->. injection Hv as ->.
    apply NoDup_cons in Hnd as [Hk Hnd].
    apply Forall_cons in Hin as [Hkin Hin].
    rewrite write_loop_other.
    + rewrite list_lookup_insert_eq by lia. unfold rd. by rewrite Hx.
    + intros Hel. apply list_elem_of_fmap in Hel as (k' & Heq & Hk').
      rewrite Forall_forall in Hin. specialize (Hin k' Hk').
      assert (k = k') by lia. by subst.
  - apply NoDup_cons in Hnd as [Hk0 Hnd].
    apply Forall_cons in Hin as [Hkin Hin].
    assert (Hne : k0 ≠ k).
    { intros ->. apply Hk0. by apply list_elem_of_lookup_2 in Hk. }
    rewrite Forall_forall in Hin.
    pose proof (Hin k (list_elem_of_lookup_2 _ _ _ Hk)) as Hkr.
    apply (IH vs _ j); try done.
    + apply Forall_forall. intros k' Hk'. rewrite length_insert. by apply Hin.
    + rewrite list_lookup_insert_ne; [done|]. lia.
Qed.

(** X16. For keys in range that are pairwise distinct, a [write(a1, v,
    b1)] followed by a [read(a2, out, b2)] on the same keys gives, for
    each key, [a2] times the written entry, which is [b1] times the old
    entry plus [a1] times the value, plus [b2] times what [out] held. *)
Theorem sparse_write_then_read (sp : Sparse_Tensor dtype)
    (a1 b1 a2 b2 : dtype) (v out : list dtype) (st : State dtype)
    (T : Tensor dtype) :
  heap st !! sp_parent sp = Some T →
  NoDup (indices sp) →
  Forall (λ k, 0 ≤ k < Z.of_nat (length (data T))) (indices sp) →
  length v = length (indices sp) →
  length out = length (indices sp) →
  ∃ (st' : State dtype) (r : list dtype),
    Sparse_write sp a1 v b1 st = Ok st'
    ∧ Sparse_read sp a2 out b2 st' = Ok r
    ∧ length r = length out
    ∧ ∀ (j : nat) (k : Z) (x y o : dtype),
        indices sp !! j = Some k → v !! j = Some x → out !! j = Some o →
        data T !! Z.to_nat k = Some y →
        r !! j = Some (a2 * (b1 * y + a1 * x) + b2 * o)%D.
Proof.
  intros HT Hnd Hin Hv Ho.
  unfold Sparse_write, Sparse_read.
  rewrite (deref_Some _ _ _ HT). simpl.
  rewrite (in_range_Forall _ _ Hin). simpl.
  assert (Hle : (length (indices sp) <=? length v)%nat = true)
    by (apply Nat.leb_le; lia).
  rewrite Hle. simpl. do 2 eexists. split; [reflexivity|].
  unfold deref. simpl. rewrite lookup_insert_eq. simpl.
  rewrite write_loop_length, (in_range_Forall _ _ Hin). simpl.
  assert (Hle' : (length (indices sp) <=? length out)%nat = true)
    by (apply Nat.leb_le; lia).
  rewrite Hle'. simpl. split; [reflexivity|].
  split; [apply read_loop_length|].
  intros j k x y o Hk Hx Ho' Hy.
  rewrite (read_loop_lookup _ _ _ _ _ j k o) by done.
  unfold rd at 1.
  by rewrite (write_loop_lookup a1 b1 _ _ _ j k x y).
Qed.

(** X17. A sparse write that succeeds changes the entries of one tensor
    at the positions of its keys only: the entries at all other
    positions, the shape and the number of entries of that tensor, every
    other tensor and the trace stay as they were. *)
Theorem sparse_write_frame (sp : Sparse_Tensor dtype) (alpha beta : dtype)
    (values : list dtype) (st st' : State dtype) :
  Sparse_write sp alpha values beta st = Ok st' →
  trace st' = trace st
  ∧ (∀ q : ptr, q ≠ sp_parent sp → heap st' !! q = heap st !! q)
  ∧ ∃ T T' : Tensor dtype,
      heap st !! sp_parent sp = Some T
      ∧ heap st' !! sp_parent sp = Some T'
      ∧ same_shape T T'
      ∧ length (data T') = length (data T)
      ∧ ∀ p : nat, p ∉ Z.to_nat <$> indices sp →
          data T' !! p = data T !! p.
Proof.
  unfold Sparse_write, deref.
  destruct (heap st !! sp_parent sp) as [T|] eqn:HT; [|discriminate]. simpl.
  destruct (forallb _ _); [|discriminate]. simpl.
  destruct (_ <=? _)%nat; [|discriminate]. simpl.
  intros [= <-]. simpl. split; [done|]. split.
  { intros q Hq. by rewrite lookup_insert_ne. }
  exists T. eexists. split; [done|].
  split; [apply lookup_insert_eq|]. simpl. split; [done|].
  split; [apply write_loop_length|].
  intros p Hp. by apply write_loop_other.
Qed.

(** ** Global indices *)

Lemma ravel_bound (lens ix : list Z) :
  Forall2 (λ m i, 0 ≤ i < m) lens ix →
  0 ≤ ravel lens ix < foldr Z.mul 1 lens.
Proof.
  induction 1 as [|m i lens ix Hi _ IH]; simpl; [lia|]. nia.
Qed.

(** X18. The global index of the header, [i + j*m + k*m*n + l*m*n*p] for
    the index (i,j,k,l) and the edge lengths (m,n,p,q), numbers the
    indices within the edge lengths one to one: it lies below the product
    of the lengths, the index is recovered from it, and every number
    below the product is the global index of the index recovered from
    it. *)
Theorem global_index_round_trip (lens ix : list Z) (g : Z) :
  (∀ m n p q i j k l : Z,
     ravel [m; n; p; q] [i; j; k; l] = i + j * m + k * m * n + l * m * n * p)
  ∧ (Forall2 (λ m i, 0 ≤ i < m) lens ix →
     0 ≤ ravel lens ix < foldr Z.mul 1 lens
     ∧ unravel lens (ravel lens ix) = ix)
  ∧ (Forall (λ m, 0 < m) lens → 0 ≤ g < foldr Z.mul 1 lens →
     Forall2 (λ m i, 0 ≤ i < m) lens (unravel lens g)
     ∧ ravel lens (unravel lens g) = g).
Proof.
  split; [intros; simpl; ring|]. split.
  - intros H. split; [by apply ravel_bound|].
    induction H as [|m i lens ix Hi Hrest IH]; simpl; [done|].
    f_equal.
    + replace (i + m * ravel lens ix) with (i + ravel lens ix * m) by lia.
      rewrite Z_mod_plus_full. by apply Z.mod_small.
    + replace (i + m * ravel lens ix) with (i + ravel lens ix * m) by lia.
      rewrite Z_div_plus_full by lia.
      rewrite Z.div_small by done. exact IH.
  - revert g. induction lens as [|m lens IH]; intros g Hpos Hg; simpl in *.
    + split; [constructor|lia].
    + apply Forall_cons in Hpos as [Hm Hpos].
      assert (Hq : 0 ≤ g / m < foldr Z.mul 1 lens).
      { split; [apply Z.div_pos; lia|].
        apply Z.div_lt_upper_bound; lia. }
      destruct (IH (g / m) Hpos Hq) as [IH1 IH2]. split.
      * constructor; [|done]. apply Z.mod_pos_bound. lia.
      * rewrite IH2. rewrite (Z.div_mod g m) at 3 by lia. lia.
Qed.

End Properties.

(** * The operations on integer tensors *)

#[local] Existing Instance einsum_Kernel.
#[local] Existing Instance empty_Base.

Lemma Z_Scalar_ring : Scalar_ring Z.
Proof. constructor; simpl; intros; lia. Defined.

(** The leaf [A["ji"]], executed against [C["ij"]] in [heap22]. *)
Lemma leaf_execute_is_one_sum_witness :
  heap heap22 !! parent view_A = Some A22
  ∧ heap heap22 !! parent view_C = Some C22
  ∧ ∃ st',
      Idx_Tensor_execute view_A view_C heap22 = Ok st'
      ∧ Idx_Tensor_execute view_A view_C heap22
        = sum_call (parent view_C) (scale view_A) (parent view_A)
            (idx_map view_A) (scale view_C) (idx_map view_C) heap22
      ∧ trace st' = trace heap22 ++ [Call_sum (parent view_C) (scale view_A)
                       (parent view_A) (idx_map view_A) (scale view_C)
                       (idx_map view_C)]
      ∧ heap st' !! parent view_C
        = Some (Tensor_sum (scale view_A) A22 (idx_map view_A) (scale view_C)
                  (idx_map view_C) C22)
      ∧ ∀ q, q ≠ parent view_C → heap st' !! q = heap heap22 !! q.
Proof.
  split; [reflexivity|]. split; [reflexivity|].
  apply (leaf_execute_is_one_sum view_A view_C heap22 A22 C22); reflexivity.
Defined.

(** What the [execute] of each of the two leaves [A["ji"]] and [A["ij"]],
    both of scale 3, leaves in [C22] when it is called on the view with
    scale 0: three times the transpose of [A22], and three times
    [A22]. *)
Example leaf_values_differ :
  (∃ st', Idx_Tensor_execute view_A (set_scale 0 view_C) heap22 = Ok st'
          ∧ data <$> heap st' !! 2%nat = Some [3; 9; 6; 12])
  ∧ (∃ st', Idx_Tensor_execute view_A' (set_scale 0 view_C) heap22 = Ok st'
            ∧ data <$> heap st' !! 2%nat = Some [3; 6; 9; 12])
  ∧ [3; 9; 6; 12] ≠ [3; 6; 9; 12].
Proof.
  split; [eexists; split; [reflexivity|]; vm_compute; reflexivity|].
  split; [eexists; split; [reflexivity|]; vm_compute; reflexivity|].
  discriminate.
Qed.

(** [C["ij"] = A["ji"]] and [C["ij"] = A["ij"]] in [heap22]. *)
Lemma assign_ignores_operands_witness :
  Term_scale (Leaf view_A') = Term_scale (Leaf view_A)
  ∧ op_assign view_C (Leaf view_A) heap22
    = (set_scale d0 view_C,
       base_execute (Term_scale (Leaf view_A)) (set_scale d0 view_C) heap22)
  ∧ op_assign view_C (Leaf view_A') heap22
    = op_assign view_C (Leaf view_A) heap22
  ∧ ∀ v v' : list Z, v ≠ v' →
      ¬ (leaves_data view_C (op_assign view_C (Leaf view_A) heap22).2 v
         ∧ leaves_data view_C (op_assign view_C (Leaf view_A') heap22).2 v').
Proof.
  split; [reflexivity|].
  exact (assign_ignores_operands view_C (Leaf view_A) (Leaf view_A') heap22
           eq_refl).
Defined.

(** [C["ij"] += A["ji"]] and [C["ij"] += A["ij"]] in [heap22]. *)
Lemma add_assign_ignores_operands_witness :
  Term_scale (Leaf view_A') = Term_scale (Leaf view_A)
  ∧ op_add_assign view_C (Leaf view_A) heap22
    = (set_scale d1 view_C,
       base_execute (Term_scale (Leaf view_A)) (set_scale d1 view_C) heap22)
  ∧ op_add_assign view_C (Leaf view_A') heap22
    = op_add_assign view_C (Leaf view_A) heap22
  ∧ ∀ v v' : list Z, v ≠ v' →
      ¬ (leaves_data view_C (op_add_assign view_C (Leaf view_A) heap22).2 v
         ∧ leaves_data view_C
             (op_add_assign view_C (Leaf view_A') heap22).2 v').
Proof.
  split; [reflexivity|].
  exact (add_assign_ignores_operands view_C (Leaf view_A) (Leaf view_A')
           heap22 eq_refl).
Defined.

(** [C["ij"] -= A["ji"]] and [C["ij"] -= A["ij"]] in [heap22]. *)
Lemma sub_assign_ignores_operands_witness :
  Term_scale (Leaf view_A') = Term_scale (Leaf view_A)
  ∧ op_sub_assign view_C (Leaf view_A) heap22
    = (set_scale d1 view_C,
       base_execute (Term_scale (Leaf view_A) * - d1)%D (set_scale d1 view_C)
         heap22)
  ∧ op_sub_assign view_C (Leaf view_A') heap22
    = op_sub_assign view_C (Leaf view_A) heap22
  ∧ ∀ v v' : list Z, v ≠ v' →
      ¬ (leaves_data view_C (op_sub_assign view_C (Leaf view_A) heap22).2 v
         ∧ leaves_data view_C
             (op_sub_assign view_C (Leaf view_A') heap22).2 v').
Proof.
  split; [reflexivity|].
  exact (sub_assign_ignores_operands view_C (Leaf view_A) (Leaf view_A')
           heap22 eq_refl).
Defined.

(** The contraction of [S["ikj"]] with [V["k"]]: the pair of [i] and [k]
    is split and [i] carries [NS]. *)
Lemma intermediate_tags_witness :
  heap heap_sym !! parent view_S' = Some S222
  ∧ heap heap_sym !! parent view_V = Some V2
  ∧ length (idx_map view_S') = ndim S222
  ∧ length (idx_map view_V) = ndim V2
  ∧ ∃ (out : Idx_Tensor Z) (st' : State Z) (TC : Tensor Z),
    get_intermediate view_S' view_V heap_sym = Ok (out, st')
    ∧ heap st' !! parent out = Some TC
    ∧ idx_map out = map (label view_S') (free_dims view_S' view_V V2 (ndim S222))
                    ++ map (label view_V) (free_dims view_V view_S' S222 (ndim V2))
    ∧ (∀ p i, free_dims view_S' view_V V2 (ndim S222) !! p = Some i →
         sym TC !! p = Some (kept_tag view_S' S222 view_V V2 (ndim S222) i))
    ∧ (∀ p j, free_dims view_V view_S' S222 (ndim V2) !! p = Some j →
         sym TC !! (length (free_dims view_S' view_V V2 (ndim S222)) + p)%nat
         = Some (kept_tag view_V V2 view_S' S222 (ndim V2) j))
    ∧ (∀ p i, free_dims view_S' view_V V2 (ndim S222) !! p = Some i →
         found (label view_S' (S i)) view_V V2 = true →
         sym TC !! p = Some NS)
    ∧ (∀ p j, free_dims view_V view_S' S222 (ndim V2) !! p = Some j →
         found (label view_V (S j)) view_S' S222 = true →
         sym TC !! (length (free_dims view_S' view_V V2 (ndim S222)) + p)%nat
         = Some NS).
Proof.
  split; [reflexivity|]. split; [reflexivity|].
  split; [reflexivity|]. split; [reflexivity|].
  apply (intermediate_tags view_S' view_V heap_sym S222 V2); reflexivity.
Defined.

(** C6, as stated, fails: in the contraction of [S["kij"]] with [V["k"]]
    the first two dimensions of [S] are a symmetric pair, [k] is
    contracted away and [i] stays, and [i] carries [SY] in the
    intermediate, for its own pair with [j]. *)
Lemma intermediate_tag_of_second_survivor :
  sym S222 !! 0%nat = Some SY
  ∧ found (label view_S 0) view_V V2 = true
  ∧ found (label view_S 1) view_V V2 = false
  ∧ ∃ (out : Idx_Tensor Z) (st' : State Z) (TC : Tensor Z),
      get_intermediate view_S view_V heap_sym = Ok (out, st')
      ∧ heap st' !! parent out = Some TC
      ∧ idx_map out = ["i"; "j"]%char
      ∧ sym TC = [SY; NS]
      ∧ sym TC !! 0%nat ≠ Some NS.
Proof.
  split; [reflexivity|]. split; [reflexivity|]. split; [reflexivity|].
  do 3 eexists. split; [vm_compute; reflexivity|].
  split; [vm_compute; reflexivity|]. simpl.
  split; [reflexivity|]. split; [reflexivity|]. discriminate.
Qed.



(** Views of the rank 2 tensor [A22]. *)
Lemma ctor_checks_no_length_witness :
  heap heap22 !! 1%nat = Some A22
  ∧ (∀ c, Idx_Tensor_ctor 1%nat (c_str "ij") 0 heap22 ≠ Fail c)
  ∧ ((ndim A22 ≤ String.length "ij")%nat →
     Idx_Tensor_ctor 1%nat (c_str "ij") 0 heap22
     = Ok ({| parent := 1%nat;
              idx_map := take (ndim A22) (list_ascii_of_string "ij");
              is_intm := 0; scale := d1 |}, heap22))
  ∧ (String.length "ij" = ndim A22 →
     Idx_Tensor_ctor 1%nat (c_str "ij") 0 heap22
     = Ok ({| parent := 1%nat; idx_map := list_ascii_of_string "ij";
              is_intm := 0; scale := d1 |}, heap22))
  ∧ (S (String.length "ij") = ndim A22 →
     Idx_Tensor_ctor 1%nat (c_str "ij") 0 heap22
     = Ok ({| parent := 1%nat; idx_map := c_str "ij"; is_intm := 0;
              scale := d1 |}, heap22))
  ∧ ((S (String.length "ij") < ndim A22)%nat →
     Idx_Tensor_ctor 1%nat (c_str "ij") 0 heap22 = Undefined).
Proof.
  split; [reflexivity|].
  apply (ctor_checks_no_length 1%nat "ij" heap22 A22). reflexivity.
Defined.

(** C8, as stated, fails: over the rank 2 tensor [A22] the string "ijk",
    of three characters, gives the view labelled "ij" and no
    ShapeMismatch. *)
Lemma ctor_accepts_longer_string :
  heap heap22 !! 1%nat = Some A22
  ∧ String.length "ijk" ≠ ndim A22
  ∧ Idx_Tensor_ctor 1%nat (c_str "ijk") 0 heap22
    = Ok ({| parent := 1%nat; idx_map := ["i"; "j"]%char; is_intm := 0;
             scale := 1 |}, heap22)
  ∧ Idx_Tensor_ctor 1%nat (c_str "ijk") 0 heap22 ≠ Fail ShapeMismatch.
Proof.
  split; [reflexivity|]. split; [simpl; lia|].
  split; [reflexivity|]. discriminate.
Qed.

(** The constructor with the copy flag set, on "ij" over [A22]: no view
    results. *)
Example ctor_copy_of_A22 :
  Idx_Tensor_ctor 1%nat (c_str "ij") 1 heap22 = Undefined.
Proof. reflexivity. Qed.

(** The intermediate of [M["ik"]] and [N["kj"]] is labelled "ij", with
    the length of [i] from [M] and the length of [j] from [N]. *)
Example intermediate_of_matrix_product :
  intermediate_shape view_M M23 view_N N34
  = {| idx_C := ["i"; "j"]%char; len_C := [2; 4]; sym_C := [NS; NS] |}.
Proof. reflexivity. Qed.

(** * The further properties on integer tensors *)

(** [A["ji"]] executed against [C["ij"]] in [heap22]. *)
Lemma execute_keeps_shapes_witness :
  Idx_Tensor_execute view_A view_C heap22
  = Ok {| heap := <[2%nat := Tensor_sum 3 A22 (idx_map view_A) 7
                              (idx_map view_C) C22]> (heap heap22);
          trace := [Call_sum 2%nat 3 1%nat (idx_map view_A) 7
                      (idx_map view_C)] |}
  ∧ dom (<[2%nat := Tensor_sum 3 A22 (idx_map view_A) 7
                      (idx_map view_C) C22]> (heap heap22))
    = dom (heap heap22)
  ∧ ∀ (q : nat) (T : Tensor Z), heap heap22 !! q = Some T →
      ∃ T' : Tensor Z,
        <[2%nat := Tensor_sum 3 A22 (idx_map view_A) 7
                     (idx_map view_C) C22]> (heap heap22) !! q = Some T'
        ∧ same_shape T T' ∧ length (data T') = length (data T).
Proof.
  split; [reflexivity|].
  exact (execute_keeps_shapes view_A view_C heap22 _ eq_refl).
Defined.

(** A view "ij" made over [C22], and [A["ji"]] executed against it. *)
Lemma fresh_view_accumulates_witness :
  Scalar_ring Z
  ∧ heap heap22 !! 2%nat = Some C22
  ∧ String.length "ij" = ndim C22
  ∧ heap heap22 !! parent view_A = Some A22
  ∧ ∃ (v : Idx_Tensor Z) (st' : State Z) (T' : Tensor Z),
      Idx_Tensor_ctor 2%nat (c_str "ij") 0 heap22 = Ok (v, heap22)
      ∧ Idx_Tensor_execute view_A v heap22 = Ok st'
      ∧ heap st' !! 2%nat = Some T'
      ∧ same_shape C22 T'
      ∧ data T'
        = imap (λ g b,
            b + scale view_A * sum_kernel A22 (idx_map view_A) (len C22)
                                 (sym C22) (list_ascii_of_string "ij") g)
            (data C22).
Proof.
  split; [exact Z_Scalar_ring|]. split; [reflexivity|]. split; [reflexivity|].
  split; [reflexivity|].
  exact (fresh_view_accumulates Z_Scalar_ring 2%nat "ij" view_A heap22 C22 A22
           eq_refl eq_refl eq_refl).
Defined.

(** The view [A["ji"]] copied with the copy flag unset. *)
Lemma view_ctor_borrows_witness :
  heap heap22 !! parent view_A = Some A22
  ∧ ((ndim A22 ≤ length (idx_map view_A))%nat →
     Idx_Tensor_ctor_view view_A 0 heap22
     = Ok ({| parent := parent view_A;
              idx_map := take (ndim A22) (idx_map view_A);
              is_intm := is_intm view_A; scale := scale view_A |}, heap22))
  ∧ (length (idx_map view_A) = ndim A22 →
     Idx_Tensor_ctor_view view_A 0 heap22 = Ok (view_A, heap22))
  ∧ ((length (idx_map view_A) < ndim A22)%nat →
     Idx_Tensor_ctor_view view_A 0 heap22 = Undefined).
Proof.
  split; [reflexivity|].
  exact (view_ctor_borrows view_A heap22 A22 eq_refl).
Defined.

(** The view [A["ji"]] copied with the copy flag set. *)
Lemma view_ctor_copy_is_private_witness :
  1 ≠ 0
  ∧ heap heap22 !! parent view_A = Some A22
  ∧ (ndim A22 ≤ length (idx_map view_A))%nat
  ∧ ∃ (v : Idx_Tensor Z) (st' : State Z),
      Idx_Tensor_ctor_view view_A 1 heap22 = Ok (v, st')
      ∧ heap heap22 !! parent v = None
      ∧ parent v ≠ parent view_A
      ∧ heap st' !! parent v = Some A22
      ∧ (∀ (q : nat) (T0 : Tensor Z),
           heap heap22 !! q = Some T0 → heap st' !! q = Some T0)
      ∧ trace st' = trace heap22
      ∧ idx_map v = take (ndim A22) (idx_map view_A)
      ∧ is_intm v = is_intm view_A
      ∧ scale v = scale view_A
      ∧ ∀ (L : Idx_Tensor Z) (st'' : State Z),
          Idx_Tensor_execute L v st' = Ok st'' →
          heap st'' !! parent view_A = Some A22.
Proof.
  assert (H1 : 1 ≠ 0) by lia.
  assert (Hn : (ndim A22 ≤ length (idx_map view_A))%nat) by (simpl; lia).
  split; [exact H1|]. split; [reflexivity|]. split; [exact Hn|].
  exact (view_ctor_copy_is_private view_A 1 heap22 A22 H1 eq_refl Hn).
Defined.

(** The intermediate of [M["ik"]] and [N["kj"]] in [heap_mat]. *)
Lemma intermediate_labels_witness :
  heap heap_mat !! parent view_M = Some M23
  ∧ heap heap_mat !! parent view_N = Some N34
  ∧ length (idx_map view_M) = ndim M23
  ∧ length (idx_map view_N) = ndim N34
  ∧ ∃ (out : Idx_Tensor Z) (st' : State Z),
      get_intermediate view_M view_N heap_mat = Ok (out, st')
      ∧ ∀ c : ascii,
          c ∈ idx_map out
          ↔ (c ∈ idx_map view_M ∧ c ∉ idx_map view_N)
            ∨ (c ∈ idx_map view_N ∧ c ∉ idx_map view_M).
Proof.
  split; [reflexivity|]. split; [reflexivity|].
  split; [reflexivity|]. split; [reflexivity|].
  exact (intermediate_labels view_M view_N heap_mat M23 N34
           eq_refl eq_refl eq_refl eq_refl).
Defined.

Lemma intermediate_lengths_witness :
  heap heap_mat !! parent view_M = Some M23
  ∧ heap heap_mat !! parent view_N = Some N34
  ∧ length (idx_map view_M) = ndim M23 ∧ length (len M23) = ndim M23
  ∧ length (idx_map view_N) = ndim N34 ∧ length (len N34) = ndim N34
  ∧ ∃ (out : Idx_Tensor Z) (st' : State Z) (TC : Tensor Z),
      get_intermediate view_M view_N heap_mat = Ok (out, st')
      ∧ heap st' !! parent out = Some TC
      ∧ length (idx_map out) = ndim TC
      ∧ length (len TC) = ndim TC
      ∧ length (sym TC) = ndim TC
      ∧ (∀ p i, free_dims view_M view_N N34 (ndim M23) !! p = Some i →
           idx_map out !! p = idx_map view_M !! i
           ∧ len TC !! p = len M23 !! i)
      ∧ (∀ p j, free_dims view_N view_M M23 (ndim N34) !! p = Some j →
           idx_map out
             !! (length (free_dims view_M view_N N34 (ndim M23)) + p)%nat
           = idx_map view_N !! j
           ∧ len TC
               !! (length (free_dims view_M view_N N34 (ndim M23)) + p)%nat
             = len N34 !! j).
Proof.
  split; [reflexivity|]. split; [reflexivity|].
  split; [reflexivity|]. split; [reflexivity|].
  split; [reflexivity|]. split; [reflexivity|].
  exact (intermediate_lengths view_M view_N heap_mat M23 N34
           eq_refl eq_refl eq_refl eq_refl eq_refl eq_refl).
Defined.

Lemma intermediate_is_new_and_zero_witness :
  heap heap_mat !! parent view_M = Some M23
  ∧ heap heap_mat !! parent view_N = Some N34
  ∧ (ndim M23 ≤ length (idx_map view_M))%nat
  ∧ (ndim N34 ≤ length (idx_map view_N))%nat
  ∧ ∃ (out : Idx_Tensor Z) (st' : State Z) (TC : Tensor Z),
      get_intermediate view_M view_N heap_mat = Ok (out, st')
      ∧ heap heap_mat !! parent out = None
      ∧ heap st' !! parent out = Some TC
      ∧ (∀ (q : nat) (T : Tensor Z),
           heap heap_mat !! q = Some T → heap st' !! q = Some T)
      ∧ trace st' = trace heap_mat
      ∧ is_intm out = 1
      ∧ scale out = d1
      ∧ data TC = replicate (Z.to_nat (foldr Z.mul 1 (len TC))) d0.
Proof.
  assert (HM : (ndim M23 ≤ length (idx_map view_M))%nat) by (simpl; lia).
  assert (HN : (ndim N34 ≤ length (idx_map view_N))%nat) by (simpl; lia).
  split; [reflexivity|]. split; [reflexivity|].
  split; [exact HM|]. split; [exact HN|].
  exact (intermediate_is_new_and_zero view_M view_N heap_mat M23 N34
           eq_refl eq_refl HM HN).
Defined.

Lemma intermediate_labels_NoDup_witness :
  heap heap_mat !! parent view_M = Some M23
  ∧ heap heap_mat !! parent view_N = Some N34
  ∧ length (idx_map view_M) = ndim M23
  ∧ length (idx_map view_N) = ndim N34
  ∧ NoDup (idx_map view_M)
  ∧ NoDup (idx_map view_N)
  ∧ ∃ (out : Idx_Tensor Z) (st' : State Z),
      get_intermediate view_M view_N heap_mat = Ok (out, st')
      ∧ NoDup (idx_map out).
Proof.
  assert (HM : NoDup (idx_map view_M)) by (apply (bool_decide_unpack _); exact I).
  assert (HN : NoDup (idx_map view_N)) by (apply (bool_decide_unpack _); exact I).
  split; [reflexivity|]. split; [reflexivity|].
  split; [reflexivity|]. split; [reflexivity|].
  split; [exact HM|]. split; [exact HN|].
  exact (intermediate_labels_NoDup view_M view_N heap_mat M23 N34
           eq_refl eq_refl eq_refl eq_refl HM HN).
Defined.

(** The vector [V["k"]] contracted with itself in [heap_sym]. *)
Lemma intermediate_of_full_contraction_witness :
  heap heap_sym !! parent view_V = Some V2
  ∧ length (idx_map view_V) = ndim V2
  ∧ (∀ c, c ∈ idx_map view_V ↔ c ∈ idx_map view_V)
  ∧ ∃ (out : Idx_Tensor Z) (st' : State Z),
      get_intermediate view_V view_V heap_sym = Ok (out, st')
      ∧ idx_map out = []
      ∧ heap st' !! parent out
        = Some {| ndim := 0; len := []; sym := []; data := [d0] |}.
Proof.
  assert (Hs : ∀ c, c ∈ idx_map view_V ↔ c ∈ idx_map view_V) by done.
  split; [reflexivity|]. split; [reflexivity|]. split; [exact Hs|].
  exact (intermediate_of_full_contraction view_V view_V heap_sym V2 V2
           eq_refl eq_refl eq_refl eq_refl Hs).
Defined.

(** The intermediate of [M["ik"]] and [N["jl"]] in [heap_mat]. *)
Lemma intermediate_of_outer_product_witness :
  heap heap_mat !! parent view_M = Some M23
  ∧ heap heap_mat !! parent view_N' = Some N34
  ∧ (∀ i, S i = ndim M23 → sym M23 !! i = Some NS)
  ∧ (∀ j, S j = ndim N34 → sym N34 !! j = Some NS)
  ∧ (∀ c, c ∈ idx_map view_M → c ∉ idx_map view_N')
  ∧ ∃ (out : Idx_Tensor Z) (st' : State Z) (TC : Tensor Z),
      get_intermediate view_M view_N' heap_mat = Ok (out, st')
      ∧ heap st' !! parent out = Some TC
      ∧ idx_map out = idx_map view_M ++ idx_map view_N'
      ∧ ndim TC = (ndim M23 + ndim N34)%nat
      ∧ len TC = len M23 ++ len N34
      ∧ sym TC = sym M23 ++ sym N34.
Proof.
  assert (HlM : ∀ i, S i = ndim M23 → sym M23 !! i = Some NS).
  { intros i Hi. simpl in Hi. by injection Hi as ->. }
  assert (HlN : ∀ j, S j = ndim N34 → sym N34 !! j = Some NS).
  { intros j Hj. simpl in Hj. by injection Hj as ->. }
  assert (Hdis : ∀ c, c ∈ idx_map view_M → c ∉ idx_map view_N').
  { intros c Hc. simpl in Hc.
    apply elem_of_cons in Hc as [->|Hc];
      [apply (bool_decide_unpack _); exact I|].
    apply elem_of_cons in Hc as [->|Hc];
      [apply (bool_decide_unpack _); exact I|].
    by apply elem_of_nil in Hc. }
  split; [reflexivity|]. split; [reflexivity|].
  split; [exact HlM|]. split; [exact HlN|]. split; [exact Hdis|].
  exact (intermediate_of_outer_product view_M view_N' heap_mat M23 N34
           eq_refl eq_refl eq_refl eq_refl eq_refl eq_refl eq_refl eq_refl
           HlM HlN Hdis).
Defined.

(** A write and a read of the positions 3 and 0 of [C22]. *)
Lemma sparse_write_then_read_witness :
  heap heap22 !! sp_parent sparse_03 = Some C22
  ∧ NoDup (indices sparse_03)
  ∧ Forall (λ k, 0 ≤ k < Z.of_nat (length (data C22))) (indices sparse_03)
  ∧ length [5; 7] = length (indices sparse_03)
  ∧ length [1; 1] = length (indices sparse_03)
  ∧ ∃ (st' : State Z) (r : list Z),
      Sparse_write sparse_03 2 [5; 7] 3 heap22 = Ok st'
      ∧ Sparse_read sparse_03 4 [1; 1] 5 st' = Ok r
      ∧ length r = length [1; 1]
      ∧ ∀ (j : nat) (k x y o : Z),
          indices sparse_03 !! j = Some k → [5; 7] !! j = Some x →
          [1; 1] !! j = Some o → data C22 !! Z.to_nat k = Some y →
          r !! j = Some (4 * (3 * y + 2 * x) + 5 * o).
Proof.
  assert (Hnd : NoDup (indices sparse_03))
    by (apply (bool_decide_unpack _); exact I).
  assert (Hin : Forall (λ k, 0 ≤ k < Z.of_nat (length (data C22)))
                  (indices sparse_03)).
  { simpl. repeat constructor; lia. }
  split; [reflexivity|]. split; [exact Hnd|]. split; [exact Hin|].
  split; [reflexivity|]. split; [reflexivity|].
  exact (sparse_write_then_read sparse_03 2 3 4 5 [5; 7] [1; 1] heap22 C22
           eq_refl Hnd Hin eq_refl eq_refl).
Defined.

Lemma sparse_write_frame_witness :
  Sparse_write sparse_03 2 [5; 7] 3 heap22
  = Ok {| heap := <[2%nat := set_data [44; 20; 30; 130] C22]> (heap heap22);
          trace := [] |}
  ∧ trace {| heap := <[2%nat := set_data [44; 20; 30; 130] C22]> (heap heap22);
             trace := [] |} = trace heap22
  ∧ (∀ q : nat, q ≠ sp_parent sparse_03 →
       <[2%nat := set_data [44; 20; 30; 130] C22]> (heap heap22) !! q
       = heap heap22 !! q)
  ∧ ∃ T T' : Tensor Z,
      heap heap22 !! sp_parent sparse_03 = Some T
      ∧ <[2%nat := set_data [44; 20; 30; 130] C22]> (heap heap22)
          !! sp_parent sparse_03 = Some T'
      ∧ same_shape T T'
      ∧ length (data T') = length (data T)
      ∧ ∀ p : nat, p ∉ Z.to_nat <$> indices sparse_03 →
          data T' !! p = data T !! p.
Proof.
  split; [reflexivity|].
  exact (sparse_write_frame sparse_03 2 3 [5; 7] heap22 _ eq_refl).
Defined.
